(** * mine.js: the chunk lifecycle manager ([World])

    A shallow embedding of [class World] (chunk store, camera-chunk tracker,
    region fill, readiness sweep, bounded work queue, voxel edits with
    boundary propagation) and the properties its specification states,
    followed by the part of [class Player] that does not touch the renderer
    (key handlers, movement state, name, display strings) and further
    properties of both.

    Conventions.
    - JavaScript numbers that hold grid coordinates, sizes and counters are
      integers of [Z].
    - Chunks are mutable objects shared between the chunk store and the work
      queue: they live in a heap (a list indexed by location), and the store
      and the queue hold locations.
    - Calls that leave the class (event emission, the content generator, the
      scene methods of a chunk, [console.log]) are recorded, in order, in a
      trace. *)

From Stdlib Require Import Ascii.
From stdpp Require Import gmap strings list list_numbers pretty.

Open Scope Z_scope.

(** [Coords3] is a triple of numbers. *)
Definition Coords3 : Type := Z * Z * Z.

(** A reference to a chunk object: its index in the heap. *)
Abbreviation loc := nat (only parsing).

(** ** Helper *)

Module Helper.

(** Modelled from the spec: [Helper.getChunkName] is not among the sources;
    the spec gives the canonical key of a chunk as its three coordinates in
    decimal, joined by a separator (its example: "cx cy cz"). *)
Definition getChunkName (coords : Coords3) : string :=
  let '(cx, cy, cz) := coords in
  pretty cx +:+ " " +:+ pretty cy +:+ " " +:+ pretty cz.

(** Modelled from the spec: [Helper.mapVoxelPosToChunkPos] is not among the
    sources; the spec gives it as floor-division by the chunk size. *)
Definition mapVoxelPosToChunkPos (vCoords : Coords3) (chunkSize : Z) : Coords3 :=
  let '(vx, vy, vz) := vCoords in
  (vx `div` chunkSize, vy `div` chunkSize, vz `div` chunkSize).

(** Modelled from the spec: [Helper.mapVoxelPosToChunkLocalPos] is not among
    the sources; the spec gives it as the corresponding modulo. *)
Definition mapVoxelPosToChunkLocalPos (vCoords : Coords3) (chunkSize : Z) : Coords3 :=
  let '(vx, vy, vz) := vCoords in
  (vx `mod` chunkSize, vy `mod` chunkSize, vz `mod` chunkSize).

End Helper.

Global Arguments Helper.getChunkName : simpl never.

(** ** Chunk *)

Module Chunk.

Record t := mk {
  coords : Coords3;
  name : string;
  size : Z;
  dimension : Z;
  padding : Z;
  (* block types, by position relative to the chunk's minimum corner *)
  voxels : gmap Coords3 Z;
  isInitialized : bool;
  isPending : bool;
  isDirty : bool;
  isMeshing : bool;
  isAdded : bool;
  isEmpty : bool;
}.

Definition set_voxels (v : gmap Coords3 Z) (c : t) : t :=
  mk (coords c) (name c) (size c) (dimension c) (padding c) v
     (isInitialized c) (isPending c) (isDirty c) (isMeshing c) (isAdded c) (isEmpty c).
Definition set_isInitialized (b : bool) (c : t) : t :=
  mk (coords c) (name c) (size c) (dimension c) (padding c) (voxels c)
     b (isPending c) (isDirty c) (isMeshing c) (isAdded c) (isEmpty c).
Definition set_isPending (b : bool) (c : t) : t :=
  mk (coords c) (name c) (size c) (dimension c) (padding c) (voxels c)
     (isInitialized c) b (isDirty c) (isMeshing c) (isAdded c) (isEmpty c).
Definition set_isDirty (b : bool) (c : t) : t :=
  mk (coords c) (name c) (size c) (dimension c) (padding c) (voxels c)
     (isInitialized c) (isPending c) b (isMeshing c) (isAdded c) (isEmpty c).
Definition set_isEmpty (b : bool) (c : t) : t :=
  mk (coords c) (name c) (size c) (dimension c) (padding c) (voxels c)
     (isInitialized c) (isPending c) (isDirty c) (isMeshing c) (isAdded c) b.

(** Modelled from the spec: the constructor of [Chunk] is not among the
    sources. A chunk is created with the given coordinates and the
    size/dimension/padding configuration, named by its coordinates, with no
    voxel written yet, uninitialized and dirty; the spec fixes no other
    flag: the in-flight and visible flags start false, the emptiness hint
    true. *)
Definition new (coords : Coords3) (size dimension padding : Z) : t :=
  {| coords := coords; name := Helper.getChunkName coords;
     size := size; dimension := dimension; padding := padding;
     voxels := ∅;
     isInitialized := false; isPending := false; isDirty := true;
     isMeshing := false; isAdded := false; isEmpty := true |}.

(** Position of a world voxel relative to the chunk's minimum corner. *)
Definition toLocal (c : t) (v : Coords3) : Coords3 :=
  let '(cx, cy, cz) := coords c in
  let '(vx, vy, vz) := v in
  (vx - cx * size c, vy - cy * size c, vz - cz * size c).

(** Modelled from the spec: a chunk holds its [size]-cube of voxels and,
    around it, a ghost margin [padding] voxels wide. *)
Definition contains (c : t) (v : Coords3) : bool :=
  let '(lx, ly, lz) := toLocal c v in
  bool_decide (- padding c ≤ lx < size c + padding c) &&
  bool_decide (- padding c ≤ ly < size c + padding c) &&
  bool_decide (- padding c ≤ lz < size c + padding c).

(** Modelled from the spec: [Chunk.getVoxel] is not among the sources. It
    reads the block type at a world voxel; a voxel the chunk (with its ghost
    margin) does not cover reads as [None] (undefined), a voxel never
    written as block type 0. *)
Definition getVoxel (c : t) (v : Coords3) : option Z :=
  if contains c v then Some (default 0 (voxels c !! toLocal c v)) else None.

(** Modelled from the spec: [Chunk.setVoxel] is not among the sources. It
    writes the block type at a world voxel the chunk covers and makes the
    chunk dirty; a voxel the chunk does not cover is left alone. *)
Definition setVoxel (c : t) (v : Coords3) (type : Z) : t :=
  if contains c v
  then set_isDirty true (set_voxels (<[toLocal c v := type]> (voxels c)) c)
  else c.

(** Modelled from the spec: [Chunk.initialized], run when generation
    completes, marks the chunk initialized and leaves it dirty. *)
Definition initialized (c : t) : t := set_isInitialized true c.

(** The scene methods of a chunk belong to the rendering layer, which is
    not among the sources: what they do to the chunk when they are called
    is left open. *)
Class Scene := {
  addToScene : t → t;
  buildMesh : t → t;
}.

(** A scene that marks the chunk as soon as it is called. *)
Definition eagerScene : Scene :=
  {| addToScene := λ c,
       mk (coords c) (name c) (size c) (dimension c) (padding c) (voxels c)
          (isInitialized c) (isPending c) (isDirty c) (isMeshing c) true (isEmpty c);
     buildMesh := λ c,
       mk (coords c) (name c) (size c) (dimension c) (padding c) (voxels c)
          (isInitialized c) (isPending c) (isDirty c) true (isAdded c) (isEmpty c) |}.

End Chunk.

(** ** World options *)

Inductive GeneratorType := flat | sin_cos.

Module WorldOptions.

Record t := mk {
  chunkSize : Z;
  chunkPadding : Z;
  dimension : Z;
  generator : option GeneratorType;
  renderRadius : Z;
  maxChunkPerFrame : Z;
}.

End WorldOptions.

Definition defaultWorldOptions : WorldOptions.t :=
  {| WorldOptions.chunkSize := 32;
     WorldOptions.chunkPadding := 2;
     WorldOptions.dimension := 1;
     WorldOptions.generator := Some sin_cos;
     WorldOptions.renderRadius := 3;
     WorldOptions.maxChunkPerFrame := 1 |}.

Inductive Generator := FlatGenerator | SinCosGenerator.

(** What the world does to its collaborators, in order: the two signals it
    emits on the engine, the call of the generator (asynchronous: the chunk
    is populated, and marked initialized, after the tick), the calls of the
    scene methods of a chunk, and the line the consistency check prints. *)
Inductive Event :=
  | EmitChunkChanged (chunkPos : Coords3)
  | EmitDataNeeded (chunk : loc)
  | CallGenerate (chunk : loc)
  | CallAddToScene (chunk : loc)
  | CallBuildMesh (chunk : loc)
  | ConsoleLog (read : option Z) (type : Z).

(** [for (let x = lo; x <= hi; x++)] *)
Definition range (lo hi : Z) : list Z := seqZ lo (hi - lo + 1).

Definition forRange {S : Type} (lo hi : Z) (body : Z → S → S) (s : S) : S :=
  foldl (λ s x, body x s) s (range lo hi).

(** ** World *)

Module World.

Record t := mk {
  options : WorldOptions.t;
  generator : option Generator;
  camChunkName : option string;
  camChunkPos : option Coords3;
  chunks : gmap string loc;
  dirtyChunks : list loc;
  (* the chunk objects *)
  heap : list Chunk.t;
  (* effects on the engine, the generator, the scene and the console *)
  trace : list Event;
}.

Definition set_cam (n : string) (p : Coords3) (w : t) : t :=
  mk (options w) (generator w) (Some n) (Some p)
     (chunks w) (dirtyChunks w) (heap w) (trace w).
Definition set_chunks (m : gmap string loc) (w : t) : t :=
  mk (options w) (generator w) (camChunkName w) (camChunkPos w)
     m (dirtyChunks w) (heap w) (trace w).
Definition set_dirtyChunks (q : list loc) (w : t) : t :=
  mk (options w) (generator w) (camChunkName w) (camChunkPos w)
     (chunks w) q (heap w) (trace w).
Definition set_heap (h : list Chunk.t) (w : t) : t :=
  mk (options w) (generator w) (camChunkName w) (camChunkPos w)
     (chunks w) (dirtyChunks w) h (trace w).
Definition emit (e : Event) (w : t) : t :=
  mk (options w) (generator w) (camChunkName w) (camChunkPos w)
     (chunks w) (dirtyChunks w) (heap w) (trace w ++ [e]).

(** A method call on the chunk object at [c]. *)
Definition onChunk (f : Chunk.t → Chunk.t) (c : loc) (w : t) : t :=
  set_heap (alter f c (heap w)) w.

(** [constructor]: the options over the defaults, an empty store and queue,
    the generator chosen by the switch (none when no case matches). *)
Definition new (options : WorldOptions.t) : t :=
  {| options := options;
     generator :=
       match WorldOptions.generator options with
       | Some flat => Some FlatGenerator
       | Some sin_cos => Some SinCosGenerator
       | None => None
       end;
     camChunkName := None; camChunkPos := None;
     chunks := ∅; dirtyChunks := []; heap := []; trace := [] |}.

Definition getChunkByName (w : t) (chunkName : string) : option loc :=
  chunks w !! chunkName.

Definition getChunkByCPos (w : t) (cCoords : Coords3) : option loc :=
  getChunkByName w (Helper.getChunkName cCoords).

Definition getChunkByVoxel (w : t) (vCoords : Coords3) : option loc :=
  let chunkSize := WorldOptions.chunkSize (options w) in
  let chunkCoords := Helper.mapVoxelPosToChunkPos vCoords chunkSize in
  getChunkByCPos w chunkCoords.

Definition getNeighborChunksByVoxel (w : t) (vCoords : Coords3) : list loc :=
  let chunkSize := WorldOptions.chunkSize (options w) in
  let chunkPadding := WorldOptions.chunkPadding (options w) in
  let '(cx, cy, cz) := Helper.mapVoxelPosToChunkPos vCoords chunkSize in
  let '(lx, ly, lz) := Helper.mapVoxelPosToChunkLocalPos vCoords chunkSize in
  let push (cond : bool) (c : Coords3) (acc : list (option loc)) :=
    if cond then acc ++ [getChunkByCPos w c] else acc in
  let neighborChunks : list (option loc) := [] in
  let a := bool_decide (lx < chunkPadding) in
  let b := bool_decide (ly < chunkPadding) in
  let c := bool_decide (lz < chunkPadding) in
  let d := bool_decide (lx >= chunkSize - chunkPadding) in
  let e := bool_decide (ly >= chunkSize - chunkPadding) in
  let f := bool_decide (lz >= chunkSize - chunkPadding) in
  let neighborChunks := push a (cx - 1, cy, cz) neighborChunks in
  let neighborChunks := push b (cx, cy - 1, cz) neighborChunks in
  let neighborChunks := push c (cx, cy, cz - 1) neighborChunks in
  let neighborChunks := push d (cx + 1, cy, cz) neighborChunks in
  let neighborChunks := push e (cx, cy + 1, cz) neighborChunks in
  let neighborChunks := push f (cx, cy, cz + 1) neighborChunks in
  (* filter(Boolean) *)
  omap id neighborChunks.

(** [getVoxelByVoxel]: [None] is [null] (no owning chunk). *)
Definition getVoxelByVoxel (w : t) (vCoords : Coords3) : option (option Z) :=
  match getChunkByVoxel w vCoords with
  | Some chunk =>
      match heap w !! chunk with
      | Some ch => Some (Chunk.getVoxel ch vCoords)
      | None => None
      end
  | None => None
  end.

Definition setChunk (chunk : loc) (w : t) : t :=
  match heap w !! chunk with
  | Some ch => set_chunks (<[Chunk.name ch := chunk]> (chunks w)) w
  | None => w
  end.

(** One turn of the consistency loop at the end of [setVoxel]. *)
Definition checkNeighbor (vCoords : Coords3) (type : Z) (w : t) (c : loc) : t :=
  match heap w !! c with
  | Some ch =>
      if decide (Chunk.getVoxel ch vCoords ≠ Some type)
      then emit (ConsoleLog (Chunk.getVoxel ch vCoords) type) w
      else w
  | None => w
  end.

Definition setVoxel (vCoords : Coords3) (type : Z) (w : t) : t :=
  let write := λ ch, Chunk.setVoxel ch vCoords type in
  let chunk := getChunkByVoxel w vCoords in
  let w := match chunk with
           | Some chunk => onChunk write chunk w
           | None => w
           end in
  let neighborChunks := getNeighborChunksByVoxel w vCoords in
  let w := foldl (λ w c, onChunk write c w) w neighborChunks in
  foldl (checkNeighbor vCoords type) w neighborChunks.

Definition requestChunkData (chunk : loc) (w : t) : t :=
  match generator w with
  | None =>
      (* assume the worst, say the chunk is not empty *)
      let w := onChunk (Chunk.set_isEmpty false) chunk w in
      let w := onChunk (Chunk.set_isPending true) chunk w in
      emit (EmitDataNeeded chunk) w
  | Some _ =>
      (* the promise resolves, and [Chunk.initialized] runs, after the tick *)
      emit (CallGenerate chunk) w
  end.

(** The completion of a generation request. *)
Definition generationResolved (chunk : loc) (w : t) : t :=
  onChunk Chunk.initialized chunk w.

Section WithScene.
Context {scene : Chunk.Scene}.

Definition callAddToScene (chunk : loc) (w : t) : t :=
  emit (CallAddToScene chunk) (onChunk Chunk.addToScene chunk w).

Definition callBuildMesh (chunk : loc) (w : t) : t :=
  emit (CallBuildMesh chunk) (onChunk Chunk.buildMesh chunk w).

(** [surroundCamChunks], past the [continue]: the chunk at [(x, y, z)] is
    created when the store has none. *)
Definition createChunkAt (dimension chunkSize chunkPadding : Z)
    (x y z : Z) (w : t) : t :=
  match getChunkByCPos w (x, y, z) with
  | Some _ => w
  | None =>
      (* the new object takes the next free location *)
      let newChunk := length (heap w) in
      let w := set_heap (heap w ++ [Chunk.new (x, y, z) chunkSize dimension chunkPadding]) w in
      let w := setChunk newChunk w in
      (* unshift *)
      set_dirtyChunks (newChunk :: dirtyChunks w) w
  end.

(** Body of the innermost loop of [surroundCamChunks]. *)
Definition surroundAt (renderRadius dimension chunkSize chunkPadding : Z)
    (cx cy cz x y z : Z) (w : t) : t :=
  let dx := x - cx in
  let dy := y - cy in
  let dz := z - cz in
  if bool_decide (dx * dx + dy * dy + dz * dz > renderRadius * renderRadius)
  then w
  else createChunkAt dimension chunkSize chunkPadding x y z w.

(** [surroundCamChunks]; [None] is the exception of destructuring an
    undefined [camChunkPos]. *)
Definition surroundCamChunks (w : t) : option t :=
  let renderRadius := WorldOptions.renderRadius (options w) in
  let dimension := WorldOptions.dimension (options w) in
  let chunkSize := WorldOptions.chunkSize (options w) in
  let chunkPadding := WorldOptions.chunkPadding (options w) in
  '(cx, cy, cz) ← camChunkPos w;
  Some
    (forRange (cx - renderRadius) (cx + renderRadius) (λ x,
     forRange (cy - renderRadius) (cy + renderRadius) (λ y,
     forRange (cz - renderRadius) (cz + renderRadius) (λ z,
       surroundAt renderRadius dimension chunkSize chunkPadding cx cy cz x y z))) w).

(** What the sweep does with a chunk it finds. *)
Definition sweepChunk (chunk : loc) (ch : Chunk.t) (w : t) : t :=
  if Chunk.isInitialized ch then
    if negb (Chunk.isDirty ch) then
      if negb (Chunk.isAdded ch) then callAddToScene chunk w else w
    else
      if negb (Chunk.isMeshing ch) then callBuildMesh chunk w else w
  else w.

(** The sweep, past the [continue]. *)
Definition sweepVisit (x y z : Z) (w : t) : t :=
  match getChunkByCPos w (x, y, z) with
  | Some chunk =>
      match heap w !! chunk with
      | Some ch => sweepChunk chunk ch w
      | None => w
      end
  | None => w
  end.

(** Body of the innermost loop of the second half of [checkCamChunk]. *)
Definition sweepAt (renderRadius : Z) (cx cy cz x y z : Z) (w : t) : t :=
  let dx := x - cx in
  let dy := y - cy in
  let dz := z - cz in
  (* sphere of chunks around camera effect *)
  if bool_decide (dx * dx + dy * dy + dz * dz > renderRadius * renderRadius)
  then w
  else sweepVisit x y z w.

(** Second half of [checkCamChunk] (from the destructuring of
    [camChunkPos] on). *)
Definition sweep (renderRadius : Z) (w : t) : option t :=
  '(cx, cy, cz) ← camChunkPos w;
  Some
    (forRange (cx - renderRadius) (cx + renderRadius) (λ x,
     forRange (cy - renderRadius) (cy + renderRadius) (λ y,
     forRange (cz - renderRadius) (cz + renderRadius) (λ z,
       sweepAt renderRadius cx cy cz x y z))) w).

(** [checkCamChunk]; [pos] is [engine.camera.voxel]. *)
Definition checkCamChunk (pos : Coords3) (w : t) : option t :=
  let chunkSize := WorldOptions.chunkSize (options w) in
  let renderRadius := WorldOptions.renderRadius (options w) in
  let chunkPos := Helper.mapVoxelPosToChunkPos pos chunkSize in
  let chunkName := Helper.getChunkName chunkPos in
  w ← (if decide (Some chunkName ≠ camChunkName w)
       then
         let w := emit (EmitChunkChanged chunkPos) w in
         let w := set_cam chunkName chunkPos w in
         surroundCamChunks w
       else Some w);
  sweep renderRadius w.

(** Body of the [while] loop of [meshDirtyChunks], after the [shift]. *)
Definition meshDirtyChunk (chunk : loc) (w : t) : t :=
  match heap w !! chunk with
  | Some ch =>
      if Chunk.isPending ch then
        (* waiting for client-side generation, will mesh once done. *)
        set_dirtyChunks (dirtyChunks w ++ [chunk]) w
      else if negb (Chunk.isInitialized ch) then
        (* if chunk data has not been initialized *)
        let w := requestChunkData chunk w in
        (* push it back, so when it's finished, it gets meshed. *)
        set_dirtyChunks (dirtyChunks w ++ [chunk]) w
      else if Chunk.isMeshing ch then w
      else callBuildMesh chunk w
  | None => w
  end.

(** The [while] loop of [meshDirtyChunks]; every turn adds one to [count],
    so [maxChunkPerFrame + 1 - count] turns are enough ([whileLoop_fuel]). *)
Fixpoint whileLoop (fuel : nat) (count : Z) (w : t) : t :=
  match fuel with
  | O => w
  | S fuel =>
      if bool_decide (count ≤ WorldOptions.maxChunkPerFrame (options w))
         && bool_decide (Z.of_nat (length (dirtyChunks w)) > 0)
      then
        let count := count + 1 in
        match dirtyChunks w with
        | chunk :: rest =>
            whileLoop fuel count (meshDirtyChunk chunk (set_dirtyChunks rest w))
        | [] => w
        end
      else w
  end.

Definition meshDirtyChunks (w : t) : t :=
  if bool_decide (Z.of_nat (length (dirtyChunks w)) > 0)
  then whileLoop (Z.to_nat (WorldOptions.maxChunkPerFrame (options w) + 1)) 0 w
  else w.

(** The entries the loop shifts off the queue, in order. *)
Fixpoint shifted (fuel : nat) (count : Z) (w : t) : list loc :=
  match fuel with
  | O => []
  | S fuel =>
      if bool_decide (count ≤ WorldOptions.maxChunkPerFrame (options w))
         && bool_decide (Z.of_nat (length (dirtyChunks w)) > 0)
      then
        match dirtyChunks w with
        | chunk :: rest =>
            chunk :: shifted fuel (count + 1) (meshDirtyChunk chunk (set_dirtyChunks rest w))
        | [] => []
        end
      else []
  end.

(** The entries one call of [meshDirtyChunks] shifts off the queue. *)
Definition shiftedEntries (w : t) : list loc :=
  if bool_decide (Z.of_nat (length (dirtyChunks w)) > 0)
  then shifted (Z.to_nat (WorldOptions.maxChunkPerFrame (options w) + 1)) 0 w
  else [].

Definition tick (pos : Coords3) (w : t) : option t :=
  (* Check camera position *)
  w ← checkCamChunk pos w;
  Some (meshDirtyChunks w).

End WithScene.

(** [breakVoxel]; [lookBlock] is [engine.camera.lookBlock], [None] when null. *)
Definition breakVoxel (lookBlock : option Coords3) (w : t) : t :=
  match lookBlock with
  | Some v => setVoxel v 0 w
  | None => w
  end.

(** [placeVoxel]; [targetBlock] is [engine.camera.targetBlock]. *)
Definition placeVoxel (targetBlock : option Coords3) (type : Z) (w : t) : t :=
  match targetBlock with
  | Some v => setVoxel v type w
  | None => w
  end.

(** [get camChunkPosStr]; [None] is the exception of indexing an undefined
    [camChunkPos]. *)
Definition camChunkPosStr (w : t) : option string :=
  '(x, y, z) ← camChunkPos w;
  Some (pretty x +:+ " " +:+ pretty y +:+ " " +:+ pretty z).

End World.

(** ** Player: keys, movement state, name *)

Module Player.

Record Movements := mkMovements {
  up : bool;
  down : bool;
  left : bool;
  right : bool;
  front : bool;
  back : bool;
  sprint : bool;
}.

Definition set_up (b : bool) (m : Movements) : Movements :=
  mkMovements b (down m) (left m) (right m) (front m) (back m) (sprint m).
Definition set_down (b : bool) (m : Movements) : Movements :=
  mkMovements (up m) b (left m) (right m) (front m) (back m) (sprint m).
Definition set_left (b : bool) (m : Movements) : Movements :=
  mkMovements (up m) (down m) b (right m) (front m) (back m) (sprint m).
Definition set_right (b : bool) (m : Movements) : Movements :=
  mkMovements (up m) (down m) (left m) b (front m) (back m) (sprint m).
Definition set_front (b : bool) (m : Movements) : Movements :=
  mkMovements (up m) (down m) (left m) (right m) b (back m) (sprint m).
Definition set_back (b : bool) (m : Movements) : Movements :=
  mkMovements (up m) (down m) (left m) (right m) (front m) b (sprint m).
Definition set_sprint (b : bool) (m : Movements) : Movements :=
  mkMovements (up m) (down m) (left m) (right m) (front m) (back m) b.

(** What the key handlers read of the engine: [controls.isLocked],
    [engine.chat.enabled] and [engine.inputs.namespace]. *)
Record Inputs := mkInputs {
  isLocked : bool;
  chatEnabled : bool;
  namespace : string;
}.

Definition onKeyDown (i : Inputs) (code : string) (m : Movements) : Movements :=
  if negb (isLocked i) || chatEnabled i then m
  else if bool_decide (namespace i ≠ "in-game") then m
  else if bool_decide (code = "KeyR") then set_sprint true m
  else if bool_decide (code = "ArrowUp") || bool_decide (code = "KeyW")
    then set_front true m
  else if bool_decide (code = "ArrowLeft") || bool_decide (code = "KeyA")
    then set_left true m
  else if bool_decide (code = "ArrowDown") || bool_decide (code = "KeyS")
    then set_back true m
  else if bool_decide (code = "ArrowRight") || bool_decide (code = "KeyD")
    then set_right true m
  else if bool_decide (code = "Space") then set_up true m
  else if bool_decide (code = "ShiftLeft") then set_down true m
  else m.

Definition onKeyUp (i : Inputs) (code : string) (m : Movements) : Movements :=
  if negb (isLocked i) || chatEnabled i then m
  else if bool_decide (namespace i ≠ "in-game") then m
  else if bool_decide (code = "ArrowUp") || bool_decide (code = "KeyW")
    then set_front false m
  else if bool_decide (code = "ArrowLeft") || bool_decide (code = "KeyA")
    then set_left false m
  else if bool_decide (code = "ArrowDown") || bool_decide (code = "KeyS")
    then set_back false m
  else if bool_decide (code = "ArrowRight") || bool_decide (code = "KeyD")
    then set_right false m
  else if bool_decide (code = "Space") then set_up false m
  else if bool_decide (code = "ShiftLeft") then set_down false m
  else m.

Definition resetMovements : Movements :=
  {| sprint := false; front := false; back := false; left := false;
     right := false; down := false; up := false |}.

(** [entity.brain.state], as far as the player writes it; [F] is the type of
    the heading. *)
Record BrainState (F : Type) := mkBrainState {
  running : bool;
  sprinting : bool;
  jumping : bool;
  crouching : bool;
  heading : F;
}.
Global Arguments mkBrainState {F}.
Global Arguments running {F}.
Global Arguments sprinting {F}.
Global Arguments jumping {F}.
Global Arguments crouching {F}.
Global Arguments heading {F}.

Section MoveEntity.
(** The floating-point numbers of JavaScript and the operations on them that
    [moveEntity] uses, left uninterpreted. *)
Variable F : Type.
Variable ofZ : Z → F.
Variables add mul div atan2 : F → F → F.
Variable PI : F.
Variable eqb : F → F → bool.

(** [moveEntity]. The two directions read off the camera matrix
    ([forwardX], [forwardZ], [sideX], [sideZ]) and the two fields of
    [entity.brain.body] are inputs; the result is the movements, the brain
    state, and whether [toggleFly] is called at the end. *)
Definition moveEntity (forwardX forwardZ sideX sideZ : F)
    (gravityMultiplier atRestY : F)
    (movements : Movements) (state : BrainState F)
    : Movements * BrainState F * bool :=
  let fb : Z := if front movements then (if back movements then 0 else 1)
                else if back movements then -1 else 0 in
  let rl : Z := if left movements then (if right movements then 0 else 1)
                else if right movements then -1 else 0 in
  let totalX := add forwardX sideX in
  let totalZ := add forwardZ sideZ in
  let angle := atan2 totalX totalZ in
  let '(movements', state) :=
    if bool_decide (Z.lor fb rl = 0) then
      let state := mkBrainState false (sprinting state) (jumping state)
                     (crouching state) (heading state) in
      if sprinting state
      then (set_sprint false movements,
            mkBrainState (running state) false (jumping state)
              (crouching state) (heading state))
      else (movements, state)
    else
      let state := mkBrainState true (sprinting state) (jumping state)
                     (crouching state) (heading state) in
      let angle :=
        if bool_decide (fb ≠ 0) then
          let angle := if bool_decide (fb = -1) then add angle PI else angle in
          if bool_decide (rl ≠ 0)
          then add angle (mul (mul (div PI (ofZ 4)) (ofZ fb)) (ofZ rl))
          else angle
        else add angle (div (mul (ofZ rl) PI) (ofZ 2)) in
      (* not sure why add Math.PI / 4, but it was always off by that. *)
      (movements,
       mkBrainState (running state) (sprinting state) (jumping state)
         (crouching state) (add angle (div PI (ofZ 4)))) in
  (* set jump as true, and brain will handle the jumping *)
  let jumping' := if up movements then (if down movements then false else true)
                  else if down movements then false else false in
  (* crouch to true, so far used for flying; apply sprint state change:
     [sprint], like the other flags, was read before the branch above *)
  let state := mkBrainState (running state) (sprint movements) jumping'
                 (down movements) (heading state) in
  (* means landed, no more fly *)
  (movements', state,
   eqb gravityMultiplier (ofZ 0) && eqb atRestY (ofZ (-1))).

(** [playFootsteps]: whether the footsteps sound is played (it is paused
    otherwise); [atRestY] is the field of [entity.body]. *)
Definition playFootsteps (atRestY : F) (state : BrainState F) : bool :=
  running state && eqb atRestY (ofZ (-1)).

(** [toggleFly]: the new [gravityMultiplier] of [entity.body]. *)
Definition toggleFly (spectatorMode : bool) (gravityMultiplier : F) : F :=
  if spectatorMode then gravityMultiplier
  else
    let isFlying := eqb gravityMultiplier (ofZ 0) in
    if isFlying then ofZ 1 else ofZ 0.

End MoveEntity.

Definition LOCAL_STORAGE_PLAYER_NAME : string := "mine.js-player".
Definition DEFAULT_PLAYER_NAME : string := "naenaebaby".

(** [a || b] on strings: the empty string is the falsy one. *)
Definition orElse (a b : string) : string := if bool_decide (a = "") then b else a.

(** The name the constructor reads: [localStorage.getItem(...) || DEFAULT];
    [getItem] is null for a missing key. *)
Definition initialName (localStorage : gmap string string) : string :=
  match localStorage !! LOCAL_STORAGE_PLAYER_NAME with
  | Some name => orElse name DEFAULT_PLAYER_NAME
  | None => DEFAULT_PLAYER_NAME
  end.

(** [setName]: the new name and the new local storage. *)
Definition setName (name : string) (localStorage : gmap string string)
    : string * gmap string string :=
  let name := orElse name " " in
  (name, <[LOCAL_STORAGE_PLAYER_NAME := name]> localStorage).

Inductive PerspectiveType := first | second | third.

(** [togglePerspective]: the new perspective and the visibility of the
    player's own mesh. *)
Definition togglePerspective (perspective : PerspectiveType) : PerspectiveType * bool :=
  let perspective :=
    match perspective with
    | first => third
    | third => second
    | second => first
    end in
  (perspective, match perspective with first => false | _ => true end).

(** [get lookBlockStr]. *)
Definition lookBlockStr (lookBlock : option Coords3) : string :=
  match lookBlock with
  | Some (x, y, z) => pretty x +:+ " " +:+ pretty y +:+ " " +:+ pretty z
  | None => "None"
  end.

End Player.

(** * The vocabulary of the properties *)

(** ** The region around the camera chunk *)

(** Squared distance, in chunks, of [p] from [c]. *)
Definition sqDist (c p : Coords3) : Z :=
  let '(cx, cy, cz) := c in
  let '(x, y, z) := p in
  (x - cx) * (x - cx) + (y - cy) * (y - cy) + (z - cz) * (z - cz).

(** The coordinates the three nested loops run through, in loop order. *)
Definition cube (c : Coords3) (R : Z) : list Coords3 :=
  let '(cx, cy, cz) := c in
  x ← range (cx - R) (cx + R);
  y ← range (cy - R) (cy + R);
  z ← range (cz - R) (cz + R);
  [(x, y, z)].

(** The coordinates that get past the [continue], in loop order. *)
Definition region (c : Coords3) (R : Z) : list Coords3 :=
  filter (λ p, sqDist c p ≤ R * R) (cube c R).

(** A loop body on a coordinate triple. *)
Definition at3 {S : Type} (body : Z → Z → Z → S → S) (s : S) (p : Coords3) : S :=
  let '(x, y, z) := p in body x y z s.

(** ** Events and frames *)

(** The events of the sweep and of the queue drain: scene calls, and a
    generation request in the form the generator setting decides. *)
Definition allowed (gen : option Generator) (e : Event) : Prop :=
  match e with
  | CallAddToScene _ | CallBuildMesh _ => True
  | CallGenerate _ => is_Some gen
  | EmitDataNeeded _ => gen = None
  | EmitChunkChanged _ | ConsoleLog _ _ => False
  end.

(** [w'] comes from [w] with the same options, generator, camera chunk and
    chunk store, as many chunk objects, and more events, all in [P]. *)
Definition evolves (P : Event → Prop) (w w' : World.t) : Prop :=
  World.options w' = World.options w ∧
  World.generator w' = World.generator w ∧
  World.camChunkName w' = World.camChunkName w ∧
  World.camChunkPos w' = World.camChunkPos w ∧
  World.chunks w' = World.chunks w ∧
  length (World.heap w') = length (World.heap w) ∧
  ∃ evs, World.trace w' = World.trace w ++ evs ∧ Forall P evs.

(** The event of a generation request: the call of the generator when there
    is one, the "data needed" notification otherwise. *)
Definition requestEvent (gen : option Generator) (chunk : loc) : Event :=
  match gen with
  | Some _ => CallGenerate chunk
  | None => EmitDataNeeded chunk
  end.

(** The chunks for which a trace asks generation, in order. *)
Definition requested (evs : list Event) : list loc :=
  omap (λ e, match e with
             | CallGenerate chunk | EmitDataNeeded chunk => Some chunk
             | _ => None
             end) evs.

(** ** The decision table of the sweep *)

Inductive SweepAction := NoAction | AddToVisibleSet | TriggerMeshBuild.

(** The decision table of the sweep, row by row. *)
Definition decisionTable (isInitialized isDirty isAdded isMeshing : bool) : SweepAction :=
  match isInitialized, isDirty, isAdded, isMeshing with
  | false, _, _, _ => NoAction
  | true, false, false, _ => AddToVisibleSet
  | true, false, true, _ => NoAction
  | true, true, _, false => TriggerMeshBuild
  | true, true, _, true => NoAction
  end.

Definition sweepDecision (ch : Chunk.t) : SweepAction :=
  decisionTable (Chunk.isInitialized ch) (Chunk.isDirty ch)
    (Chunk.isAdded ch) (Chunk.isMeshing ch).

(** The call an action makes on the chunk at [chunk]. *)
Definition actionEvents (a : SweepAction) (chunk : loc) : list Event :=
  match a with
  | NoAction => []
  | AddToVisibleSet => [CallAddToScene chunk]
  | TriggerMeshBuild => [CallBuildMesh chunk]
  end.

Section SweepActions.
Context {scene : Chunk.Scene}.

(** What the called method does to the chunk. *)
Definition actionEffect (a : SweepAction) (ch : Chunk.t) : Chunk.t :=
  match a with
  | NoAction => ch
  | AddToVisibleSet => Chunk.addToScene ch
  | TriggerMeshBuild => Chunk.buildMesh ch
  end.

Definition sweepEffect (ch : Chunk.t) : Chunk.t := actionEffect (sweepDecision ch) ch.

(** The calls the table asks for at a coordinate, from the state [w]. *)
Definition sweepEventsAt (w : World.t) (p : Coords3) : list Event :=
  match World.getChunkByCPos w p with
  | Some chunk =>
      match World.heap w !! chunk with
      | Some ch => actionEvents (sweepDecision ch) chunk
      | None => []
      end
  | None => []
  end.

End SweepActions.

(** ** Faces and neighbours *)

(** The six faces of a chunk, in the order [getNeighborChunksByVoxel] tests
    them. *)
Inductive Face := XMin | YMin | ZMin | XMax | YMax | ZMax.

(** The coordinates of the chunk on the other side of a face. *)
Definition across (c : Coords3) (F : Face) : Coords3 :=
  let '(cx, cy, cz) := c in
  match F with
  | XMin => (cx - 1, cy, cz)
  | YMin => (cx, cy - 1, cz)
  | ZMin => (cx, cy, cz - 1)
  | XMax => (cx + 1, cy, cz)
  | YMax => (cx, cy + 1, cz)
  | ZMax => (cx, cy, cz + 1)
  end.

(** The faces a local position is within [padding] of. *)
Definition nearFaces (size padding : Z) (l : Coords3) : list Face :=
  let '(lx, ly, lz) := l in
  (if bool_decide (lx < padding) then [XMin] else []) ++
  (if bool_decide (ly < padding) then [YMin] else []) ++
  (if bool_decide (lz < padding) then [ZMin] else []) ++
  (if bool_decide (lx >= size - padding) then [XMax] else []) ++
  (if bool_decide (ly >= size - padding) then [YMax] else []) ++
  (if bool_decide (lz >= size - padding) then [ZMax] else []).

(** ** The store *)

(** No two names of the store refer to one chunk object. *)
Definition store_inj (m : gmap string loc) : Prop :=
  ∀ n1 n2 l, m !! n1 = Some l → m !! n2 = Some l → n1 = n2.

(** Every name of the store refers to a chunk object that has the
    coordinates of that name and the size and padding of the options. *)
Definition wf (w : World.t) : Prop :=
  ∀ n l, World.chunks w !! n = Some l →
    ∃ ch, World.heap w !! l = Some ch ∧
      n = Helper.getChunkName (Chunk.coords ch) ∧
      Chunk.name ch = n ∧
      Chunk.size ch = WorldOptions.chunkSize (World.options w) ∧
      Chunk.padding ch = WorldOptions.chunkPadding (World.options w).

(** A chunk method that keeps the coordinates, name, size and padding. *)
Definition keeps_shape (f : Chunk.t → Chunk.t) : Prop :=
  ∀ ch, Chunk.coords (f ch) = Chunk.coords ch ∧
        Chunk.name (f ch) = Chunk.name ch ∧
        Chunk.size (f ch) = Chunk.size ch ∧
        Chunk.padding (f ch) = Chunk.padding ch.

(** [w'] has the options and the store of [w], and every chunk object of
    [w], with its shape. *)
Definition keeps_chunks (w w' : World.t) : Prop :=
  World.options w' = World.options w ∧
  World.chunks w' = World.chunks w ∧
  ∀ l ch, World.heap w !! l = Some ch →
    ∃ ch', World.heap w' !! l = Some ch' ∧
      Chunk.coords ch' = Chunk.coords ch ∧
      Chunk.name ch' = Chunk.name ch ∧
      Chunk.size ch' = Chunk.size ch ∧
      Chunk.padding ch' = Chunk.padding ch.

(** The specification's "if absent, no-op", at one edit: with no owning
    chunk, a voxel edit modifies no chunk's voxel data. *)
Definition unowned_edit_is_noop (w : World.t) (v : Coords3) (type : Z) : Prop :=
  World.getChunkByVoxel w v = None →
  ∀ l, Chunk.voxels <$> World.heap (World.setVoxel v type w) !! l
       = Chunk.voxels <$> World.heap w !! l.

(** No character of [s] is a space. *)
Fixpoint no_space (s : string) : Prop :=
  match s with
  | EmptyString => True
  | String a s' => a ≠ " "%char ∧ no_space s'
  end.

(** ** The camera fields and the queue *)

(** The two camera fields are unset together, or set to a chunk and its
    name. *)
Definition cam_ok (w : World.t) : Prop :=
  match World.camChunkName w, World.camChunkPos w with
  | None, None => True
  | Some n, Some c => n = Helper.getChunkName c
  | _, _ => False
  end.

(** The queue holds chunk objects of the store, each at most once. *)
Definition queue_ok (w : World.t) : Prop :=
  NoDup (World.dirtyChunks w) ∧
  ∀ l, l ∈ World.dirtyChunks w →
    is_Some (World.heap w !! l) ∧ ∃ n, World.chunks w !! n = Some l.

(** Every entry of a list of chunks is a chunk object that waits for its
    data. *)
Definition all_pending (w : World.t) (ls : list loc) : Prop :=
  ∀ l, l ∈ ls → ∃ ch, World.heap w !! l = Some ch ∧ Chunk.isPending ch = true.

(** [all_pending], as a check. *)
Definition all_pendingb (w : World.t) (ls : list loc) : bool :=
  forallb (λ l, match World.heap w !! l with
                | Some ch => Chunk.isPending ch
                | None => false
                end) ls.

(** ** The keys of the player *)

(** The key handlers act: the pointer is locked, the chat is closed and the
    input namespace is the game's. *)
Definition keys_active (i : Player.Inputs) : Prop :=
  Player.isLocked i = true ∧ Player.chatEnabled i = false ∧
  Player.namespace i = "in-game".

(** The keys ask for a horizontal movement: front without back or back
    without front, or the same of left and right. *)
Definition moving (m : Player.Movements) : bool :=
  xorb (Player.front m) (Player.back m) || xorb (Player.left m) (Player.right m).

(** The seven flags of the movements, in the order of the record. *)
Definition flags (m : Player.Movements) : list bool :=
  [Player.up m; Player.down m; Player.left m; Player.right m;
   Player.front m; Player.back m; Player.sprint m].

(** ** Some worlds *)

(** The defaults, with the options a caller overrides. *)
Definition optionsWith (renderRadius maxChunkPerFrame : Z)
    (generator : option GeneratorType) : WorldOptions.t :=
  {| WorldOptions.chunkSize := 32;
     WorldOptions.chunkPadding := 2;
     WorldOptions.dimension := 1;
     WorldOptions.generator := generator;
     WorldOptions.renderRadius := renderRadius;
     WorldOptions.maxChunkPerFrame := maxChunkPerFrame |}.

(** The defaults, with a render radius of one chunk. *)
Definition smallOptions : WorldOptions.t := optionsWith 1 1 (Some sin_cos).

(** A fresh world whose camera chunk has just been set to the origin. *)
Definition freshAtOrigin : World.t :=
  World.set_cam (Helper.getChunkName (0, 0, 0)) (0, 0, 0) (World.new smallOptions).

(** A new world after the camera check of its first tick, the camera at the
    origin. *)
Definition camChecked (options : WorldOptions.t) : World.t :=
  default (World.new options)
    (World.checkCamChunk (scene := Chunk.eagerScene) (0, 0, 0) (World.new options)).

(** A new world after its first tick, the camera at the origin. *)
Definition firstTick (options : WorldOptions.t) : World.t :=
  default (World.new options)
    (World.tick (scene := Chunk.eagerScene) (0, 0, 0) (World.new options)).

(** A world with the default options and no generator whose queue holds five
    new chunks. *)
Definition fiveQueued : World.t :=
  foldl (at3 (World.createChunkAt 1 32 2))
    (World.new (optionsWith 3 1 None))
    [(0, 0, 0); (1, 0, 0); (2, 0, 0); (3, 0, 0); (4, 0, 0)].

(** The world after a second tick, the camera moved one chunk along x. *)
Definition movedTick : World.t :=
  default (firstTick smallOptions)
    (World.tick (scene := Chunk.eagerScene) (32, 0, 0) (firstTick smallOptions)).

(** A world with no generator whose three chunks have all been asked for:
    two calls of the drain, of two turns each, on a queue of three new
    chunks. *)
Definition threePending : World.t :=
  World.meshDirtyChunks (scene := Chunk.eagerScene)
    (World.meshDirtyChunks (scene := Chunk.eagerScene)
       (foldl (at3 (World.createChunkAt 1 32 2))
          (World.new (optionsWith 3 1 None))
          [(0, 0, 0); (1, 0, 0); (2, 0, 0)])).

(** A player in the game, the pointer locked and the chat closed. *)
Definition inGame : Player.Inputs :=
  {| Player.isLocked := true; Player.chatEnabled := false;
     Player.namespace := "in-game" |}.

(** * Proofs *)


(** ** The region around the camera chunk *)

(** ** Helper: names *)

Lemma pretty_N_go_no_space x s : no_space s → no_space (pretty_N_go x s).
Proof.
  revert s. induction (N.lt_wf_0 x) as [x _ IH]; intros s Hs.
  destruct (decide (x = 0)%N) as [->|Hx].
  - by rewrite pretty_N_go_0.
  - rewrite pretty_N_go_step by lia. apply IH.
    + apply N.div_lt; lia.
    + split; [|done]. unfold pretty_N_char. by repeat case_match.
Qed.

Lemma pretty_N_no_space (x : N) : no_space (pretty x).
Proof.
  unfold pretty, pretty_N. case_decide; [by compute|].
  by apply pretty_N_go_no_space.
Qed.

Lemma pretty_Z_no_space (x : Z) : no_space (pretty x).
Proof.
  destruct x as [|p|p]; unfold pretty, pretty_Z.
  - by compute.
  - apply pretty_N_no_space.
  - simpl. split; [done|]. apply pretty_N_no_space.
Qed.

Lemma split_at_space a a' b b' :
  no_space a → no_space a' →
  a +:+ " " +:+ b = a' +:+ " " +:+ b' → a = a' ∧ b = b'.
Proof.
  revert a'. induction a as [|c a IH]; intros [|c' a'] Ha Ha' Heq; simpl in *.
  - by simplify_eq.
  - simplify_eq. by destruct Ha'.
  - simplify_eq. by destruct Ha.
  - destruct Ha, Ha'. simplify_eq. destruct (IH a') as [-> ->]; auto.
Qed.

(** The name of a chunk determines its coordinates. *)
Lemma getChunkName_inj c1 c2 :
  Helper.getChunkName c1 = Helper.getChunkName c2 → c1 = c2.
Proof.
  destruct c1 as [[x1 y1] z1], c2 as [[x2 y2] z2]. unfold Helper.getChunkName.
  intros H.
  apply split_at_space in H as [Hx H]; auto using pretty_Z_no_space.
  apply split_at_space in H as [Hy Hz]; auto using pretty_Z_no_space.
  by apply (inj pretty) in Hx, Hy, Hz; subst.
Qed.

(** ** Loops *)

Lemma foldl_bind {A B S : Type} (f : S → B → S) (g : A → list B) (s : S) (l : list A) :
  foldl f s (l ≫= g) = foldl (λ s x, foldl f s (g x)) s l.
Proof.
  revert s. induction l as [|x l IH]; intros s; [done|].
  rewrite bind_cons, foldl_app. apply IH.
Qed.

Lemma foldl_ext_in {A S : Type} (f g : S → A → S) (s : S) (l : list A) :
  (∀ s x, x ∈ l → f s x = g s x) → foldl f s l = foldl g s l.
Proof.
  revert s. induction l as [|x l IH]; intros s Hfg; [done|]. simpl.
  rewrite Hfg by left. apply IH. intros. apply Hfg. by right.
Qed.

Lemma filter_ext_in {A : Type} (P Q : A → Prop)
    `{!∀ x, Decision (P x), !∀ x, Decision (Q x)} (l : list A) :
  (∀ x, x ∈ l → P x ↔ Q x) → filter P l = filter Q l.
Proof.
  induction l as [|a l IH]; intros HPQ; [done|].
  rewrite !filter_cons, IH by (intros; apply HPQ; by right).
  destruct (HPQ a) as [??]; [left|]. repeat case_decide; tauto.
Qed.

(** Three nested loops are one pass over [cube]. *)
Lemma forRange3_cube {S : Type} (body : Z → Z → Z → S → S) cx cy cz R (s : S) :
  forRange (cx - R) (cx + R) (λ x,
  forRange (cy - R) (cy + R) (λ y,
  forRange (cz - R) (cz + R) (λ z, body x y z))) s
  = foldl (at3 body) s (cube (cx, cy, cz) R).
Proof.
  unfold forRange, cube. rewrite foldl_bind. apply foldl_ext_in. intros s1 x _.
  rewrite foldl_bind. apply foldl_ext_in. intros s2 y _.
  rewrite foldl_bind. apply foldl_ext_in. intros s3 z _. done.
Qed.

(** Skipping the coordinates outside the sphere is a pass over [region]. *)
Lemma foldl_skip_outside {S : Type} (visit : Z → Z → Z → S → S) cx cy cz R (s : S) ps :
  foldl (at3 (λ x y z s,
    if bool_decide ((x - cx) * (x - cx) + (y - cy) * (y - cy) + (z - cz) * (z - cz) > R * R)
    then s else visit x y z s)) s ps
  = foldl (at3 visit) s (filter (λ p, sqDist (cx, cy, cz) p ≤ R * R) ps).
Proof.
  revert s. induction ps as [|[[x y] z] ps IH]; intros s; [done|].
  rewrite filter_cons. simpl. case_bool_decide; case_decide; simpl in *; try lia; apply IH.
Qed.

Lemma elem_of_range lo hi x : x ∈ range lo hi ↔ lo ≤ x ≤ hi.
Proof. unfold range. rewrite elem_of_seqZ. lia. Qed.

Lemma elem_of_cube cx cy cz R x y z :
  (x, y, z) ∈ cube (cx, cy, cz) R ↔
  cx - R ≤ x ≤ cx + R ∧ cy - R ≤ y ≤ cy + R ∧ cz - R ≤ z ≤ cz + R.
Proof.
  unfold cube. rewrite list_elem_of_bind. setoid_rewrite list_elem_of_bind.
  setoid_rewrite list_elem_of_bind. setoid_rewrite list_elem_of_singleton.
  setoid_rewrite elem_of_range. split.
  - intros (x' & (y' & (z' & ? & ?) & ?) & ?). by simplify_eq.
  - intros (? & ? & ?). exists x. split; [|done]. exists y. split; [|done].
    exists z. done.
Qed.

Lemma NoDup_cube c R : NoDup (cube c R).
Proof.
  destruct c as [[cx cy] cz]. unfold cube.
  apply NoDup_bind; [| |apply NoDup_seqZ].
  { intros x1 x2 p _ _. rewrite !list_elem_of_bind.
    intros (y1 & (z1 & H1 & _)%list_elem_of_bind & _).
    intros (y2 & (z2 & H2 & _)%list_elem_of_bind & _).
    apply list_elem_of_singleton in H1, H2. congruence. }
  intros x _. apply NoDup_bind; [| |apply NoDup_seqZ].
  { intros y1 y2 p _ _. rewrite !list_elem_of_bind.
    intros (z1 & H1 & _) (z2 & H2 & _).
    apply list_elem_of_singleton in H1, H2. congruence. }
  intros y _. apply NoDup_bind; [| |apply NoDup_seqZ].
  { intros z1 z2 p _ _. rewrite !list_elem_of_singleton. congruence. }
  intros z _. apply NoDup_singleton.
Qed.

Lemma square_le_bound a R : 0 ≤ R → a * a ≤ R * R → - R ≤ a ≤ R.
Proof. nia. Qed.

(** The coordinates past the [continue] are those of the sphere. *)
Lemma elem_of_region c R p : 0 ≤ R → p ∈ region c R ↔ sqDist c p ≤ R * R.
Proof.
  intros HR. destruct c as [[cx cy] cz], p as [[x y] z]. unfold region.
  rewrite list_elem_of_filter, elem_of_cube. simpl. split; [tauto|].
  intros Hd. split; [done|].
  pose proof (Z.square_nonneg (x - cx)). pose proof (Z.square_nonneg (y - cy)).
  pose proof (Z.square_nonneg (z - cz)).
  pose proof (square_le_bound (x - cx) R HR).
  pose proof (square_le_bound (y - cy) R HR).
  pose proof (square_le_bound (z - cz) R HR). lia.
Qed.

Lemma NoDup_region c R : NoDup (region c R).
Proof. apply NoDup_filter, NoDup_cube. Qed.

(** ** Region fill *)

Lemma getChunkByCPos_createChunkAt_ne dim size pad x y z w p :
  p ≠ (x, y, z) →
  World.getChunkByCPos (World.createChunkAt dim size pad x y z w) p
  = World.getChunkByCPos w p.
Proof.
  intros Hne. unfold World.createChunkAt.
  destruct (World.getChunkByCPos w (x, y, z)) eqn:Hl; [done|].
  unfold World.setChunk. simpl.
  rewrite lookup_app_r, Nat.sub_diag by done. simpl.
  unfold World.getChunkByCPos, World.getChunkByName. simpl.
  apply lookup_insert_ne. intros Heq. by apply getChunkName_inj in Heq.
Qed.

(** One pass of "create the chunk when the store has none" over distinct
    coordinates: the coordinates with no chunk in the store at the start get a
    new chunk each, in order. *)
Lemma fill_spec dim size pad ps w :
  NoDup ps →
  let new := filter (λ p, World.getChunkByCPos w p = None) ps in
  let w' := foldl (at3 (World.createChunkAt dim size pad)) w ps in
  World.heap w' = World.heap w ++ ((λ p, Chunk.new p size dim pad) <$> new) ∧
  World.dirtyChunks w'
    = reverse (seq (length (World.heap w)) (length new)) ++ World.dirtyChunks w ∧
  (∀ i p, new !! i = Some p →
     World.chunks w' !! Helper.getChunkName p = Some (length (World.heap w) + i)%nat) ∧
  (∀ n, (∀ p, p ∈ new → Helper.getChunkName p ≠ n) →
     World.chunks w' !! n = World.chunks w !! n) ∧
  World.options w' = World.options w ∧
  World.generator w' = World.generator w ∧
  World.camChunkName w' = World.camChunkName w ∧
  World.camChunkPos w' = World.camChunkPos w ∧
  World.trace w' = World.trace w.
Proof.
  intros Hnd. revert w. induction Hnd as [|p ps Hp Hnd IH]; intros w.
  { simpl. rewrite app_nil_r. split_and!; try done. }
  simpl. rewrite filter_cons.
  set (w1 := at3 (World.createChunkAt dim size pad) w p).
  assert (Hflt : filter (λ q, World.getChunkByCPos w1 q = None) ps
               = filter (λ q, World.getChunkByCPos w q = None) ps).
  { apply filter_ext_in. intros q Hq.
    assert (q ≠ p) by (intros ->; done).
    subst w1. destruct p as [[x y] z]. simpl.
    by rewrite getChunkByCPos_createChunkAt_ne. }
  specialize (IH w1). simpl in IH. rewrite Hflt in IH.
  destruct IH as (Hheap & Hq & Hnew & Hold & Hopt & Hgen & Hcn & Hcp & Htr).
  destruct p as [[x y] z]. subst w1. simpl in *.
  unfold World.createChunkAt in *.
  destruct (World.getChunkByCPos w (x, y, z)) as [l|] eqn:Hl.
  - rewrite decide_False by done. split_and!; done.
  - rewrite decide_True by done.
    unfold World.setChunk in *. simpl in *.
    rewrite lookup_app_r, Nat.sub_diag in * by done. simpl in *.
    rewrite length_app in *. simpl in *.
    split_and!; try done.
    + rewrite Hheap, <-app_assoc. done.
    + rewrite Hq, reverse_cons, <-app_assoc. simpl.
      by rewrite Nat.add_1_r.
    + intros [|i] p Hi; simpl in *.
      * simplify_eq. rewrite Hold; [by rewrite Nat.add_0_r, lookup_insert_eq|].
        intros q [_ Hq']%list_elem_of_filter Heq.
        apply getChunkName_inj in Heq. by subst.
      * rewrite (Hnew i p Hi). f_equal. lia.
    + intros n Hn. rewrite Hold.
      * apply lookup_insert_ne. apply Hn. left.
      * intros q Hq'. apply Hn. by right.
Qed.

(** ** What the steps of a tick leave alone *)

Lemma evolves_refl P w : evolves P w w.
Proof.
  unfold evolves. split_and!; try done. exists []. by rewrite app_nil_r.
Qed.

Lemma evolves_trans P w1 w2 w3 : evolves P w1 w2 → evolves P w2 w3 → evolves P w1 w3.
Proof.
  intros (?&?&?&?&?&?&evs1&?&?) (?&?&?&?&?&?&evs2&?&?).
  unfold evolves. split_and!; try congruence.
  exists (evs1 ++ evs2). split; [|by apply Forall_app].
  rewrite app_assoc. congruence.
Qed.

Lemma evolves_foldl {A} P (f : World.t → A → World.t) (l : list A) w :
  (∀ w x, evolves P w (f w x)) → evolves P w (foldl f w l).
Proof.
  intros Hf. revert w. induction l as [|x l IH]; intros w; simpl.
  - apply evolves_refl.
  - eapply evolves_trans; [apply Hf|apply IH].
Qed.

Lemma evolves_onChunk P f c w : evolves P w (World.onChunk f c w).
Proof.
  unfold evolves, World.onChunk. simpl. rewrite length_alter.
  split_and!; try done. exists []. by rewrite app_nil_r.
Qed.

Lemma evolves_emit (P : Event → Prop) e w : P e → evolves P w (World.emit e w).
Proof.
  intros He. unfold evolves. simpl. split_and!; try done.
  exists [e]. split; [done|]. by apply Forall_singleton.
Qed.

Lemma evolves_set_dirtyChunks P q w : evolves P w (World.set_dirtyChunks q w).
Proof.
  unfold evolves. simpl. split_and!; try done. exists []. by rewrite app_nil_r.
Qed.

Lemma evolves_requestChunkData c w :
  evolves (allowed (World.generator w)) w (World.requestChunkData c w).
Proof.
  unfold World.requestChunkData. destruct (World.generator w) as [g|] eqn:Hg.
  - apply evolves_emit. simpl. eauto.
  - eapply evolves_trans; [apply evolves_onChunk|].
    eapply evolves_trans; [apply evolves_onChunk|].
    by apply evolves_emit.
Qed.

Lemma evolves_setVoxel v ty w :
  evolves (λ e, ∃ r, e = ConsoleLog r ty) w (World.setVoxel v ty w).
Proof.
  unfold World.setVoxel.
  eapply evolves_trans; [|apply evolves_foldl].
  - eapply evolves_trans; [|apply evolves_foldl; intros; apply evolves_onChunk].
    destruct (World.getChunkByVoxel w v); [apply evolves_onChunk|apply evolves_refl].
  - intros w1 c. unfold World.checkNeighbor.
    destruct (World.heap w1 !! c); [|apply evolves_refl].
    case_decide; [|apply evolves_refl]. apply evolves_emit. eauto.
Qed.

Section Frames.
Context {scene : Chunk.Scene}.

Lemma evolves_callAddToScene gen c w : evolves (allowed gen) w (World.callAddToScene c w).
Proof.
  unfold World.callAddToScene.
  eapply evolves_trans; [apply evolves_onChunk|]. by apply evolves_emit.
Qed.

Lemma evolves_callBuildMesh gen c w : evolves (allowed gen) w (World.callBuildMesh c w).
Proof.
  unfold World.callBuildMesh.
  eapply evolves_trans; [apply evolves_onChunk|]. by apply evolves_emit.
Qed.

Lemma evolves_sweepVisit gen x y z w : evolves (allowed gen) w (World.sweepVisit x y z w).
Proof.
  unfold World.sweepVisit, World.sweepChunk.
  repeat case_match; auto using evolves_refl, evolves_callAddToScene, evolves_callBuildMesh.
Qed.

Lemma evolves_sweep R w w' :
  World.sweep R w = Some w' → evolves (allowed (World.generator w)) w w'.
Proof.
  unfold World.sweep. destruct (World.camChunkPos w) as [[[cx cy] cz]|]; [|done].
  simpl. intros [= <-]. rewrite forRange3_cube. apply evolves_foldl.
  intros w1 [[x y] z]. simpl. unfold World.sweepAt.
  case_bool_decide; [apply evolves_refl|apply evolves_sweepVisit].
Qed.

Lemma evolves_meshDirtyChunk c w :
  evolves (allowed (World.generator w)) w (World.meshDirtyChunk c w).
Proof.
  unfold World.meshDirtyChunk.
  destruct (World.heap w !! c) as [ch|]; [|apply evolves_refl].
  destruct (Chunk.isPending ch); [apply evolves_set_dirtyChunks|].
  destruct (Chunk.isInitialized ch); simpl.
  - destruct (Chunk.isMeshing ch); [apply evolves_refl|apply evolves_callBuildMesh].
  - eapply evolves_trans; [apply evolves_requestChunkData|apply evolves_set_dirtyChunks].
Qed.

Lemma evolves_whileLoop fuel count w :
  evolves (allowed (World.generator w)) w (World.whileLoop fuel count w).
Proof.
  revert count w. induction fuel as [|fuel IH]; intros count w; simpl.
  { apply evolves_refl. }
  destruct (_ && _); [|apply evolves_refl].
  destruct (World.dirtyChunks w) as [|c rest] eqn:Hq; [apply evolves_refl|].
  eapply evolves_trans; [apply (evolves_set_dirtyChunks _ rest)|].
  eapply evolves_trans;
    [apply (evolves_meshDirtyChunk c (World.set_dirtyChunks rest w))|]. simpl.
  pose proof (evolves_meshDirtyChunk c (World.set_dirtyChunks rest w)) as (_&Hg&_).
  simpl in Hg. rewrite <-Hg. apply IH.
Qed.

Lemma evolves_meshDirtyChunks w :
  evolves (allowed (World.generator w)) w (World.meshDirtyChunks w).
Proof.
  unfold World.meshDirtyChunks. case_bool_decide; [|apply evolves_refl].
  apply evolves_whileLoop.
Qed.

End Frames.

Lemma surroundCamChunks_region w cx cy cz :
  World.camChunkPos w = Some (cx, cy, cz) →
  World.surroundCamChunks w
  = Some (foldl (at3 (World.createChunkAt
                        (WorldOptions.dimension (World.options w))
                        (WorldOptions.chunkSize (World.options w))
                        (WorldOptions.chunkPadding (World.options w))))
            w (region (cx, cy, cz) (WorldOptions.renderRadius (World.options w)))).
Proof.
  intros Hc. unfold World.surroundCamChunks. rewrite Hc. simpl.
  rewrite forRange3_cube. unfold World.surroundAt, region.
  by rewrite <-foldl_skip_outside.
Qed.

Section RegionFill.
Context {scene : Chunk.Scene}.

(** C1. When the camera chunk has changed, the region fill goes through
    exactly the grid coordinates at squared distance at most
    [renderRadius * renderRadius] from the camera chunk (the boundary
    included); each of them with no chunk in the store gets a new chunk
    (uninitialized, dirty, with the configured size, dimension and padding),
    which is put in the store and on the front of the work queue; no other
    coordinate gets a chunk, and neither the sweep, the queue drain nor a
    voxel edit creates one. *)
Theorem C1_region_fill (w : World.t) (c : Coords3) :
  let R := WorldOptions.renderRadius (World.options w) in
  let dim := WorldOptions.dimension (World.options w) in
  let size := WorldOptions.chunkSize (World.options w) in
  let pad := WorldOptions.chunkPadding (World.options w) in
  let new := filter (λ p, World.getChunkByCPos w p = None) (region c R) in
  0 ≤ R →
  World.camChunkPos w = Some c →
  ∃ w', World.surroundCamChunks w = Some w' ∧
    (* the coordinates the step goes through *)
    w' = foldl (at3 (World.createChunkAt dim size pad)) w (region c R) ∧
    (∀ p, p ∈ region c R ↔ sqDist c p ≤ R * R) ∧
    (* the coordinates that get a chunk *)
    (∀ p, p ∈ new ↔ sqDist c p ≤ R * R ∧ World.getChunkByCPos w p = None) ∧
    (* the new chunk objects, after the existing ones *)
    World.heap w' = World.heap w ++ ((λ p, Chunk.new p size dim pad) <$> new) ∧
    (* each on the front of the queue *)
    World.dirtyChunks w'
      = reverse (seq (length (World.heap w)) (length new)) ++ World.dirtyChunks w ∧
    (* and in the store *)
    (∀ i p, new !! i = Some p →
       World.getChunkByCPos w' p = Some (length (World.heap w) + i)%nat) ∧
    (* nothing else in the store changes *)
    (∀ p, p ∉ new → World.getChunkByCPos w' p = World.getChunkByCPos w p) ∧
    (∀ n, (∀ p, p ∈ new → Helper.getChunkName p ≠ n) →
       World.chunks w' !! n = World.chunks w !! n) ∧
    (* the other steps create no chunk *)
    (∀ R1 w1 w2, World.sweep R1 w1 = Some w2 →
       World.chunks w2 = World.chunks w1 ∧
       length (World.heap w2) = length (World.heap w1)) ∧
    (∀ w1, World.chunks (World.meshDirtyChunks w1) = World.chunks w1 ∧
       length (World.heap (World.meshDirtyChunks w1)) = length (World.heap w1)) ∧
    (∀ v ty w1, World.chunks (World.setVoxel v ty w1) = World.chunks w1 ∧
       length (World.heap (World.setVoxel v ty w1)) = length (World.heap w1)).
Proof.
  intros R dim size pad new HR Hc. destruct c as [[cx cy] cz].
  eexists. split; [by apply surroundCamChunks_region|].
  destruct (fill_spec dim size pad (region (cx, cy, cz) R) w (NoDup_region _ _))
    as (Hheap & Hq & Hnew & Hold & _).
  split_and!; try done.
  - intros p. by apply elem_of_region.
  - intros p. unfold new. rewrite list_elem_of_filter, elem_of_region by done. tauto.
  - intros p Hp. apply Hold. intros q Hq' Heq. apply getChunkName_inj in Heq.
    by subst.
  - intros R1 w1 w2 Hs. apply evolves_sweep in Hs as (_&_&_&_&?&?&_). done.
  - intros w1. pose proof (evolves_meshDirtyChunks w1) as (_&_&_&_&?&?&_). done.
  - intros v ty w1. pose proof (evolves_setVoxel v ty w1) as (_&_&_&_&?&?&_). done.
Qed.

End RegionFill.

Lemma C1_region_fill_witness :
  0 ≤ WorldOptions.renderRadius (World.options freshAtOrigin) ∧
  World.camChunkPos freshAtOrigin = Some (0, 0, 0) ∧
  ∃ w', World.surroundCamChunks freshAtOrigin = Some w' ∧
    length (World.heap w') = 7%nat ∧
    World.dirtyChunks w' = [6; 5; 4; 3; 2; 1; 0]%nat ∧
    World.getChunkByCPos w' (0, 0, 0) = Some 3%nat ∧
    World.getChunkByCPos w' (1, 1, 0) = None.
Proof.
  split; [simpl; lia|]. split; [reflexivity|].
  destruct (C1_region_fill (scene := Chunk.eagerScene) freshAtOrigin (0, 0, 0))
    as (w' & Hs & _ & _ & _ & Hheap & Hq & Hnew & Hold & _);
    [simpl; lia|reflexivity|].
  exists w'. split; [exact Hs|].
  split; [rewrite Hheap; reflexivity|].
  split; [rewrite Hq; reflexivity|].
  split; [apply (Hnew 3%nat); reflexivity|].
  rewrite Hold; [reflexivity|].
  intros Hin. apply list_elem_of_filter in Hin as [_ Hin].
  apply elem_of_region in Hin; simpl in *; lia.
Defined.

(** ** The queue drain *)

Lemma dirtyChunks_requestChunkData c w :
  World.dirtyChunks (World.requestChunkData c w) = World.dirtyChunks w.
Proof. unfold World.requestChunkData. by destruct (World.generator w). Qed.

Section Drain.
Context {scene : Chunk.Scene}.

(** An entry either leaves the queue or goes to its rear. *)
Lemma dirtyChunks_meshDirtyChunk c w :
  World.dirtyChunks (World.meshDirtyChunk c w) = World.dirtyChunks w ∨
  World.dirtyChunks (World.meshDirtyChunk c w) = World.dirtyChunks w ++ [c].
Proof.
  unfold World.meshDirtyChunk. destruct (World.heap w !! c) as [ch|]; [|by left].
  destruct (Chunk.isPending ch); [by right|].
  destruct (Chunk.isInitialized ch); simpl.
  - destruct (Chunk.isMeshing ch); by left.
  - right. by rewrite dirtyChunks_requestChunkData.
Qed.

Lemma options_meshDirtyChunk c w :
  World.options (World.meshDirtyChunk c w) = World.options w.
Proof. by pose proof (evolves_meshDirtyChunk c w) as (?&_). Qed.

Lemma whileLoop_S fuel count w :
  World.whileLoop (S fuel) count w =
  if bool_decide (count ≤ WorldOptions.maxChunkPerFrame (World.options w))
     && bool_decide (Z.of_nat (length (World.dirtyChunks w)) > 0)
  then match World.dirtyChunks w with
       | chunk :: rest =>
           World.whileLoop fuel (count + 1)
             (World.meshDirtyChunk chunk (World.set_dirtyChunks rest w))
       | [] => w
       end
  else w.
Proof. done. Qed.

(** Once the budget of turns has run out, more fuel changes nothing. *)
Lemma whileLoop_fuel_S fuel count w :
  (Z.to_nat (WorldOptions.maxChunkPerFrame (World.options w) + 1 - count) ≤ fuel)%nat →
  World.whileLoop (S fuel) count w = World.whileLoop fuel count w.
Proof.
  revert count w. induction fuel as [|fuel IH]; intros count w Hfuel.
  - rewrite whileLoop_S. simpl. rewrite bool_decide_eq_false_2 by lia. done.
  - rewrite (whileLoop_S (S fuel)), (whileLoop_S fuel).
    case_bool_decide; [|done]. simpl. case_bool_decide; [|done].
    destruct (World.dirtyChunks w) as [|c rest]; [done|].
    apply IH. rewrite options_meshDirtyChunk. simpl. lia.
Qed.

Lemma whileLoop_fuel extra w :
  let n := Z.to_nat (WorldOptions.maxChunkPerFrame (World.options w) + 1) in
  World.whileLoop (n + extra) 0 w = World.whileLoop n 0 w.
Proof.
  intros n. induction extra as [|extra IH]; [by rewrite Nat.add_0_r|].
  rewrite Nat.add_succ_r, whileLoop_fuel_S; [done|]. unfold n. lia.
Qed.

Lemma length_shifted fuel count w :
  (length (World.shifted fuel count w)
   ≤ Z.to_nat (WorldOptions.maxChunkPerFrame (World.options w) + 1 - count))%nat.
Proof.
  revert count w. induction fuel as [|fuel IH]; intros count w; simpl; [lia|].
  case_bool_decide; simpl; [|lia]. case_bool_decide; simpl; [|lia].
  destruct (World.dirtyChunks w) as [|c rest]; simpl; [lia|].
  specialize (IH (count + 1) (World.meshDirtyChunk c (World.set_dirtyChunks rest w))).
  rewrite options_meshDirtyChunk in IH. simpl in IH. lia.
Qed.

(** Entries at the front of the queue are shifted in order while the budget
    lasts, whatever is pushed to the rear meanwhile. *)
Lemma shifted_prefix q r fuel count w :
  World.dirtyChunks w = q ++ r →
  (length q ≤ fuel)%nat →
  count + Z.of_nat (length q) ≤ WorldOptions.maxChunkPerFrame (World.options w) + 1 →
  q `prefix_of` World.shifted fuel count w.
Proof.
  revert r fuel count w. induction q as [|c q IH]; intros r fuel count w Hq Hfuel Hcount.
  { apply prefix_nil. }
  destruct fuel as [|fuel]; simpl in *; [lia|].
  rewrite Hq.
  rewrite bool_decide_eq_true_2 by lia.
  rewrite bool_decide_eq_true_2 by (simpl; lia). simpl.
  apply prefix_cons.
  set (w1 := World.set_dirtyChunks (q ++ r) w).
  destruct (dirtyChunks_meshDirtyChunk c w1) as [Hd|Hd].
  - apply (IH r); [done|lia|]. rewrite options_meshDirtyChunk. simpl. lia.
  - apply (IH (r ++ [c])); [rewrite Hd; subst w1; simpl; by rewrite <-app_assoc|lia|].
    rewrite options_meshDirtyChunk. simpl. lia.
Qed.

(** The loop runs its body once for each entry it shifts, on the head of the
    queue. *)
Lemma whileLoop_shifted fuel count w :
  World.whileLoop fuel count w
  = foldl (λ w chunk,
      World.meshDirtyChunk chunk (World.set_dirtyChunks (tail (World.dirtyChunks w)) w))
      w (World.shifted fuel count w).
Proof.
  revert count w. induction fuel as [|fuel IH]; intros count w; simpl; [done|].
  destruct (_ && _); [|done].
  destruct (World.dirtyChunks w) as [|c rest] eqn:Hq; [done|].
  simpl. rewrite Hq. apply IH.
Qed.

(** C2. One call of the queue drain shifts at most [maxChunkPerFrame + 1]
    entries off the work queue, and when the queue holds at most that many
    entries it shifts every one of them, in queue order. The call is the
    loop body run on the shifted entries in turn, and the loop needs no more
    than [maxChunkPerFrame + 1] turns. *)
Theorem C2_drain_budget (w : World.t) :
  let max := WorldOptions.maxChunkPerFrame (World.options w) in
  World.meshDirtyChunks w
  = foldl (λ w chunk,
      World.meshDirtyChunk chunk (World.set_dirtyChunks (tail (World.dirtyChunks w)) w))
      w (World.shiftedEntries w) ∧
  (length (World.shiftedEntries w) ≤ Z.to_nat (max + 1))%nat ∧
  (Z.of_nat (length (World.dirtyChunks w)) ≤ max + 1 →
   World.dirtyChunks w `prefix_of` World.shiftedEntries w) ∧
  (∀ extra,
     World.whileLoop (Z.to_nat (max + 1) + extra) 0 w = World.whileLoop (Z.to_nat (max + 1)) 0 w).
Proof.
  intros max. unfold World.shiftedEntries. split_and!.
  - unfold World.meshDirtyChunks. case_bool_decide; [|done]. apply whileLoop_shifted.
  - case_bool_decide; simpl; [|lia].
    pose proof (length_shifted (Z.to_nat (max + 1)) 0 w) as Hl.
    by rewrite Z.sub_0_r in Hl.
  - intros Hlen. case_bool_decide as Hne.
    + apply (shifted_prefix _ []); [by rewrite app_nil_r|fold max; lia|fold max; lia].
    + destruct (World.dirtyChunks w); [done|simpl in *; lia].
  - intros extra. apply whileLoop_fuel.
Qed.

End Drain.

(** ** Generation requests *)

Lemma foldl_preserves {A B} (proj : World.t → B) (f : World.t → A → World.t) l w :
  (∀ w x, proj (f w x) = proj w) → proj (foldl f w l) = proj w.
Proof.
  intros Hf. revert w. induction l as [|x l IH]; intros w; simpl; [done|].
  by rewrite IH, Hf.
Qed.

Lemma trace_requestChunkData c w :
  World.trace (World.requestChunkData c w)
  = World.trace w ++ [requestEvent (World.generator w) c].
Proof. unfold World.requestChunkData. by destruct (World.generator w). Qed.

Lemma heap_requestChunkData c w :
  World.heap (World.requestChunkData c w)
  = match World.generator w with
    | Some _ => World.heap w
    | None => alter (λ ch, Chunk.set_isPending true (Chunk.set_isEmpty false ch)) c (World.heap w)
    end.
Proof.
  unfold World.requestChunkData. destruct (World.generator w); [done|]. simpl.
  by rewrite list_alter_alter_eq.
Qed.

Section Tracker.
Context {scene : Chunk.Scene}.

Lemma dirtyChunks_sweep R w w' :
  World.sweep R w = Some w' → World.dirtyChunks w' = World.dirtyChunks w.
Proof.
  unfold World.sweep. destruct (World.camChunkPos w) as [[[cx cy] cz]|]; [|done].
  simpl. intros [= <-]. rewrite forRange3_cube. apply foldl_preserves.
  intros w1 [[x y] z]. simpl.
  unfold World.sweepAt, World.sweepVisit, World.sweepChunk.
  by repeat case_match.
Qed.

Lemma sweep_is_Some R w : is_Some (World.camChunkPos w) → is_Some (World.sweep R w).
Proof.
  intros [[[cx cy] cz] Hc]. unfold World.sweep. rewrite Hc. simpl. eauto.
Qed.

Lemma checkCamChunk_same pos w :
  World.camChunkName w
  = Some (Helper.getChunkName
            (Helper.mapVoxelPosToChunkPos pos (WorldOptions.chunkSize (World.options w)))) →
  World.checkCamChunk pos w
  = World.sweep (WorldOptions.renderRadius (World.options w)) w.
Proof.
  intros Hn. unfold World.checkCamChunk.
  by rewrite decide_False by (intros Hne; by apply Hne).
Qed.

Lemma checkCamChunk_changed pos w :
  let chunkPos :=
    Helper.mapVoxelPosToChunkPos pos (WorldOptions.chunkSize (World.options w)) in
  World.camChunkName w ≠ Some (Helper.getChunkName chunkPos) →
  World.checkCamChunk pos w
  = World.surroundCamChunks
      (World.set_cam (Helper.getChunkName chunkPos) chunkPos
         (World.emit (EmitChunkChanged chunkPos) w))
    ≫= World.sweep (WorldOptions.renderRadius (World.options w)).
Proof.
  intros chunkPos Hn. unfold World.checkCamChunk.
  by rewrite decide_True by (intros Heq; apply Hn; symmetry; exact Heq).
Qed.

(** C8. On a tick where the name of the viewpoint's chunk equals the stored
    [camChunkName], the camera tracker emits no "chunk changed" notification,
    leaves [camChunkPos] and [camChunkName] as they are and does not run the
    region fill (the store, the chunk objects' number and the queue are as
    before: only the sweep runs). On a tick where the name differs, it emits
    "chunk changed" with the new camera chunk coordinates, first of all,
    sets both fields, and runs the region fill, then the sweep. *)
Theorem C8_camera_tracker (w : World.t) (pos : Coords3) :
  let chunkPos :=
    Helper.mapVoxelPosToChunkPos pos (WorldOptions.chunkSize (World.options w)) in
  let chunkName := Helper.getChunkName chunkPos in
  let R := WorldOptions.renderRadius (World.options w) in
  (World.camChunkName w = Some chunkName →
   is_Some (World.camChunkPos w) →
   ∃ w', World.checkCamChunk pos w = Some w' ∧
     World.sweep R w = Some w' ∧
     World.camChunkName w' = World.camChunkName w ∧
     World.camChunkPos w' = World.camChunkPos w ∧
     World.chunks w' = World.chunks w ∧
     length (World.heap w') = length (World.heap w) ∧
     World.dirtyChunks w' = World.dirtyChunks w ∧
     ∃ evs, World.trace w' = World.trace w ++ evs ∧
       ∀ c, EmitChunkChanged c ∉ evs) ∧
  (World.camChunkName w ≠ Some chunkName →
   ∃ w1 w', World.checkCamChunk pos w = Some w' ∧
     World.surroundCamChunks
       (World.set_cam chunkName chunkPos (World.emit (EmitChunkChanged chunkPos) w))
     = Some w1 ∧
     World.sweep R w1 = Some w' ∧
     World.camChunkName w' = Some chunkName ∧
     World.camChunkPos w' = Some chunkPos ∧
     ∃ evs, World.trace w' = World.trace w ++ EmitChunkChanged chunkPos :: evs ∧
       ∀ c, EmitChunkChanged c ∉ evs).
Proof.
  intros chunkPos chunkName R. split.
  - intros Hn Hp. destruct (sweep_is_Some R w Hp) as [w' Hs].
    exists w'. rewrite checkCamChunk_same by done. fold R.
    pose proof (evolves_sweep _ _ _ Hs) as (_&_&?&?&?&?&evs&?&Hevs).
    split_and!; try done; [by eapply dirtyChunks_sweep|].
    exists evs. split; [done|]. intros c Hin.
    by apply (proj1 (Forall_forall _ _) Hevs) in Hin.
  - intros Hn. rewrite checkCamChunk_changed by done.
    fold chunkPos chunkName R.
    set (w0 := World.set_cam chunkName chunkPos (World.emit (EmitChunkChanged chunkPos) w)).
    destruct chunkPos as [[cx cy] cz] eqn:Hcp.
    rewrite (surroundCamChunks_region w0 cx cy cz) by done. simpl.
    match goal with |- context [foldl ?f w0 ?l] => set (w1 := foldl f w0 l) end.
    destruct (fill_spec (WorldOptions.dimension (World.options w0))
                (WorldOptions.chunkSize (World.options w0))
                (WorldOptions.chunkPadding (World.options w0))
                (region (cx, cy, cz) (WorldOptions.renderRadius (World.options w0)))
                w0 (NoDup_region _ _))
      as (_ & _ & _ & _ & _ & _ & Hcn0 & Hcpos0 & Htr0).
    assert (Hcn : World.camChunkName w1 = World.camChunkName w0) by exact Hcn0.
    assert (Hcpos : World.camChunkPos w1 = World.camChunkPos w0) by exact Hcpos0.
    assert (Htr : World.trace w1 = World.trace w0) by exact Htr0.
    clear Hcn0 Hcpos0 Htr0.
    destruct (sweep_is_Some R w1) as [w' Hs]; [rewrite Hcpos; simpl; eauto|].
    exists w1, w'.
    pose proof (evolves_sweep _ _ _ Hs) as (_&_&Hn'&Hp'&_&_&evs&Ht&Hevs).
    split; [exact Hs|]. split; [done|]. split; [exact Hs|].
    split; [by rewrite Hn', Hcn|]. split; [by rewrite Hp', Hcpos|].
    exists evs. split.
    + rewrite Ht, Htr. simpl. by rewrite <-app_assoc.
    + intros c Hin. by apply (proj1 (Forall_forall _ _) Hevs) in Hin.
Qed.

End Tracker.

Lemma not_elem_of_Forall {A} (P : A → Prop) (l : list A) (x : A) :
  Forall P l → ¬ P x → x ∉ l.
Proof. intros Hl Hx Hin. by apply (proj1 (Forall_forall _ _) Hl) in Hin. Qed.

Section Requests.
Context {scene : Chunk.Scene}.

(** The events of the camera check: "chunk changed", then scene calls. *)
Lemma checkCamChunk_events pos w w' :
  World.checkCamChunk pos w = Some w' →
  World.generator w' = World.generator w ∧
  ∃ evs, World.trace w' = World.trace w ++ evs ∧
    Forall (λ e, allowed (World.generator w) e ∨ ∃ c, e = EmitChunkChanged c) evs.
Proof.
  unfold World.checkCamChunk. case_decide as Hn; simpl.
  - set (chunkPos := Helper.mapVoxelPosToChunkPos pos _).
    set (w0 := World.set_cam _ chunkPos _).
    destruct (World.surroundCamChunks w0) as [w1|] eqn:Hsur; [|done]. simpl.
    intros Hs. apply evolves_sweep in Hs as (_&Hg&_&_&_&_&evs&Ht&Hevs).
    assert (World.camChunkPos w0 = Some chunkPos) as Hc by done.
    destruct chunkPos as [[cx cy] cz].
    rewrite (surroundCamChunks_region w0 cx cy cz Hc) in Hsur.
    injection Hsur as Hsur.
    pose proof (fill_spec (WorldOptions.dimension (World.options w0))
                (WorldOptions.chunkSize (World.options w0))
                (WorldOptions.chunkPadding (World.options w0))
                (region (cx, cy, cz) (WorldOptions.renderRadius (World.options w0)))
                w0 (NoDup_region _ _)) as Hfill.
    simpl in Hfill. rewrite Hsur in Hfill.
    destruct Hfill as (_ & _ & _ & _ & _ & Hg1 & _ & _ & Htr).
    split; [congruence|].
    exists (EmitChunkChanged (cx, cy, cz) :: evs). split.
    + rewrite Ht, Htr. simpl. by rewrite <-app_assoc.
    + constructor; [right; eauto|].
      eapply Forall_impl; [exact Hevs|]. intros e He. left. by rewrite <-Hg1.
  - intros Hs. apply evolves_sweep in Hs as (_&Hg&_&_&_&_&evs&Ht&Hevs).
    split; [done|]. exists evs. split; [done|].
    eapply Forall_impl; [exact Hevs|]. by left.
Qed.

Lemma tick_events pos w w' :
  World.tick pos w = Some w' →
  ∃ evs, World.trace w' = World.trace w ++ evs ∧
    Forall (λ e, allowed (World.generator w) e ∨ ∃ c, e = EmitChunkChanged c) evs.
Proof.
  unfold World.tick. destruct (World.checkCamChunk pos w) as [w1|] eqn:Hc; [|done].
  simpl. intros [= <-].
  apply checkCamChunk_events in Hc as (Hg & evs1 & Ht1 & Hevs1).
  pose proof (evolves_meshDirtyChunks w1) as (_&_&_&_&_&_&evs2&Ht2&Hevs2).
  exists (evs1 ++ evs2). split; [rewrite Ht2, Ht1; by rewrite app_assoc|].
  apply Forall_app. split; [done|].
  eapply Forall_impl; [exact Hevs2|]. intros e He. left. by rewrite <-Hg.
Qed.

(** C9. A generation request issued when no content generator is configured
    marks the chunk non-empty and pending and emits "data needed" with that
    chunk; when a generator is configured, the request calls the generator
    instead, and neither a whole tick nor a voxel edit emits "data needed". *)
Theorem C9_data_needed (w : World.t) (chunk : loc) :
  (World.generator w = None →
   let w' := World.requestChunkData chunk w in
   World.trace w' = World.trace w ++ [EmitDataNeeded chunk] ∧
   World.heap w'
   = alter (λ ch, Chunk.set_isPending true (Chunk.set_isEmpty false ch)) chunk (World.heap w) ∧
   (∀ ch, World.heap w !! chunk = Some ch →
      ∃ ch', World.heap w' !! chunk = Some ch' ∧
        Chunk.isEmpty ch' = false ∧ Chunk.isPending ch' = true) ∧
   (∀ c, c ≠ chunk → World.heap w' !! c = World.heap w !! c)) ∧
  (is_Some (World.generator w) →
   World.trace (World.requestChunkData chunk w) = World.trace w ++ [CallGenerate chunk] ∧
   (∀ pos w', World.tick pos w = Some w' →
      ∃ evs, World.trace w' = World.trace w ++ evs ∧ ∀ c, EmitDataNeeded c ∉ evs) ∧
   (∀ v ty, ∃ evs, World.trace (World.setVoxel v ty w) = World.trace w ++ evs ∧
      ∀ c, EmitDataNeeded c ∉ evs)).
Proof.
  split.
  - intros Hg. simpl. rewrite trace_requestChunkData, heap_requestChunkData, Hg.
    simpl. split_and!; try done.
    + intros ch Hch. rewrite list_lookup_alter_eq, Hch. simpl. eauto.
    + intros c Hc. by rewrite list_lookup_alter_ne.
  - intros [g Hg]. rewrite trace_requestChunkData, Hg. split_and!; [done| |].
    + intros pos w' Ht. apply tick_events in Ht as (evs & Ht & Hevs).
      exists evs. split; [done|]. intros c.
      apply (not_elem_of_Forall _ _ _ Hevs). rewrite Hg. simpl.
      intros [?|[? ?]]; done.
    + intros v ty. pose proof (evolves_setVoxel v ty w) as (_&_&_&_&_&_&evs&Ht&Hevs).
      exists evs. split; [done|]. intros c.
      apply (not_elem_of_Forall _ _ _ Hevs). intros [? ?]; done.
Qed.

Lemma meshDirtyChunk_uninitialized c ch w :
  World.heap w !! c = Some ch →
  Chunk.isPending ch = false →
  Chunk.isInitialized ch = false →
  World.meshDirtyChunk c w
  = World.set_dirtyChunks (World.dirtyChunks w ++ [c]) (World.requestChunkData c w).
Proof.
  intros Hch Hp Hi. unfold World.meshDirtyChunk. rewrite Hch, Hp, Hi. simpl.
  by rewrite dirtyChunks_requestChunkData.
Qed.

(** With a generator, a queue that holds one uninitialized chunk asks its
    generation on every turn of the loop. *)
Lemma whileLoop_single fuel count w c ch :
  is_Some (World.generator w) →
  World.heap w !! c = Some ch →
  Chunk.isPending ch = false →
  Chunk.isInitialized ch = false →
  World.dirtyChunks w = [c] →
  Z.to_nat (WorldOptions.maxChunkPerFrame (World.options w) + 1 - count) = fuel →
  let w' := World.whileLoop fuel count w in
  World.trace w' = World.trace w ++ replicate fuel (CallGenerate c) ∧
  World.heap w' = World.heap w ∧
  World.dirtyChunks w' = [c].
Proof.
  revert count w. induction fuel as [|fuel IH]; intros count w Hg Hch Hp Hi Hq Hfuel.
  { simpl. by rewrite app_nil_r. }
  simpl. rewrite Hq. rewrite bool_decide_eq_true_2 by lia. simpl.
  set (w0 := World.set_dirtyChunks [] w).
  assert (World.heap w0 !! c = Some ch) as Hch0 by done.
  rewrite (meshDirtyChunk_uninitialized c ch w0 Hch0 Hp Hi).
  set (w1 := World.set_dirtyChunks _ _).
  destruct Hg as [g Hg].
  assert (World.heap w1 = World.heap w) as Hh1.
  { subst w1. simpl. rewrite heap_requestChunkData. simpl. by rewrite Hg. }
  assert (World.trace w1 = World.trace w ++ [CallGenerate c]) as Ht1.
  { subst w1. simpl. rewrite trace_requestChunkData. simpl. by rewrite Hg. }
  assert (World.options w1 = World.options w ∧ World.generator w1 = World.generator w)
    as [Ho1 Hg1].
  { subst w1. simpl. by pose proof (evolves_requestChunkData c w0) as (?&?&_). }
  destruct (IH (count + 1) w1) as (Ht & Hh & Hq').
  - rewrite Hg1. eauto.
  - by rewrite Hh1.
  - done.
  - done.
  - done.
  - rewrite Ho1. lia.
  - split_and!; [|congruence|done].
    rewrite Ht, Ht1, <-app_assoc. done.
Qed.

(** C10. With a content generator configured, a generation request leaves
    every chunk object as it is: the chunk stays not pending and uninitialized.
    So when the queue drain takes the chunk again before the generation has
    resolved, it issues a second request; a queue that holds only this chunk
    gets [maxChunkPerFrame + 1] requests for it in a single call. *)
Theorem C10_request_again (w : World.t) (chunk : loc) (ch : Chunk.t) :
  is_Some (World.generator w) →
  World.heap w !! chunk = Some ch →
  Chunk.isPending ch = false →
  Chunk.isInitialized ch = false →
  World.heap (World.requestChunkData chunk w) = World.heap w ∧
  (let w1 := World.meshDirtyChunk chunk w in
   World.heap w1 = World.heap w ∧
   World.trace w1 = World.trace w ++ [CallGenerate chunk] ∧
   World.dirtyChunks w1 = World.dirtyChunks w ++ [chunk] ∧
   let w2 := World.meshDirtyChunk chunk w1 in
   World.heap w2 = World.heap w ∧
   World.trace w2 = World.trace w ++ [CallGenerate chunk; CallGenerate chunk]) ∧
  (World.dirtyChunks w = [chunk] →
   0 ≤ WorldOptions.maxChunkPerFrame (World.options w) →
   let w' := World.meshDirtyChunks w in
   World.trace w'
   = World.trace w
     ++ replicate (Z.to_nat (WorldOptions.maxChunkPerFrame (World.options w) + 1))
          (CallGenerate chunk) ∧
   World.heap w' = World.heap w ∧
   World.dirtyChunks w' = [chunk]).
Proof.
  intros [g Hg] Hch Hp Hi.
  assert (Hreq : ∀ w0, World.generator w0 = Some g →
            World.heap (World.requestChunkData chunk w0) = World.heap w0 ∧
            World.trace (World.requestChunkData chunk w0)
            = World.trace w0 ++ [CallGenerate chunk]).
  { intros w0 Hg0. by rewrite heap_requestChunkData, trace_requestChunkData, Hg0. }
  destruct (Hreq w Hg) as [Hh Ht].
  split; [done|]. split.
  - simpl. rewrite (meshDirtyChunk_uninitialized chunk ch w Hch Hp Hi). simpl.
    split_and!; [done|done|done|..].
    all: set (w1 := World.set_dirtyChunks _ _).
    all: assert (World.heap w1 !! chunk = Some ch) as Hch1
      by (subst w1; simpl; by rewrite Hh).
    all: rewrite (meshDirtyChunk_uninitialized chunk ch w1 Hch1 Hp Hi); simpl.
    all: destruct (Hreq w1) as [Hh1 Ht1];
      [subst w1; simpl;
       by pose proof (evolves_requestChunkData chunk w) as (_&->&_)|].
    + by rewrite Hh1.
    + rewrite Ht1. subst w1. simpl. by rewrite Ht, <-app_assoc.
  - intros Hq Hmax. unfold World.meshDirtyChunks. rewrite Hq. simpl.
    apply (whileLoop_single _ 0 w chunk ch); eauto.
    f_equal. lia.
Qed.

End Requests.

Section DrainEntries.
Context {scene : Chunk.Scene}.

Lemma isInitialized_requestChunkData c w l ch :
  World.heap w !! l = Some ch →
  ∃ ch', World.heap (World.requestChunkData c w) !! l = Some ch' ∧
    Chunk.isInitialized ch' = Chunk.isInitialized ch ∧
    (l ≠ c → ch' = ch).
Proof.
  intros Hl. rewrite heap_requestChunkData.
  destruct (World.generator w); [eauto|].
  destruct (decide (c = l)) as [->|Hne].
  - rewrite list_lookup_alter_eq, Hl. simpl. eexists. split; [done|]. split; [done|].
    by intros [].
  - rewrite list_lookup_alter_ne by done. eauto.
Qed.

(** C3. Every entry the queue drain shifts off goes through the body
    [meshDirtyChunk]: a pending chunk is pushed to the rear and nothing else
    happens; otherwise an uninitialized chunk gets a generation request and is
    pushed to the rear; otherwise a chunk that is meshing is dropped and
    nothing else happens; otherwise a mesh build is started and the chunk is
    dropped. With [maxChunkPerFrame = 1] and a queue of five distinct chunks,
    none pending or initialized, one call requests generation for the first
    two only, and the queue still holds all five, none initialized. *)
Theorem C3_drain_entry (w : World.t) :
  (∀ (fuel : nat) (count : Z) (chunk : loc) (rest : list loc) (ch : Chunk.t),
     World.dirtyChunks w = chunk :: rest →
     World.heap w !! chunk = Some ch →
     count ≤ WorldOptions.maxChunkPerFrame (World.options w) →
     let w0 := World.set_dirtyChunks rest w in
     let w1 := World.meshDirtyChunk chunk w0 in
     World.whileLoop (S fuel) count w = World.whileLoop fuel (count + 1) w1 ∧
     (Chunk.isPending ch = true →
        w1 = World.set_dirtyChunks (rest ++ [chunk]) w) ∧
     (Chunk.isPending ch = false → Chunk.isInitialized ch = false →
        w1 = World.set_dirtyChunks (rest ++ [chunk]) (World.requestChunkData chunk w) ∧
        World.trace w1 = World.trace w ++ [requestEvent (World.generator w) chunk]) ∧
     (Chunk.isPending ch = false → Chunk.isInitialized ch = true →
      Chunk.isMeshing ch = true →
        w1 = w0) ∧
     (Chunk.isPending ch = false → Chunk.isInitialized ch = true →
      Chunk.isMeshing ch = false →
        w1 = World.callBuildMesh chunk w0 ∧
        World.dirtyChunks w1 = rest ∧
        World.trace w1 = World.trace w ++ [CallBuildMesh chunk] ∧
        World.heap w1 = alter Chunk.buildMesh chunk (World.heap w))) ∧
  (∀ (l1 l2 l3 l4 l5 : loc),
     WorldOptions.maxChunkPerFrame (World.options w) = 1 →
     World.dirtyChunks w = [l1; l2; l3; l4; l5] →
     NoDup [l1; l2; l3; l4; l5] →
     (∀ l, l ∈ [l1; l2; l3; l4; l5] →
        ∃ ch, World.heap w !! l = Some ch ∧
          Chunk.isPending ch = false ∧ Chunk.isInitialized ch = false) →
     let w' := World.meshDirtyChunks w in
     World.dirtyChunks w' = [l3; l4; l5; l1; l2] ∧
     (∃ evs, World.trace w' = World.trace w ++ evs ∧
        requested evs = [l1; l2] ∧ (length (requested evs) ≤ 2)%nat) ∧
     (∀ l, l ∈ [l1; l2; l3; l4; l5] →
        ∃ ch, World.heap w' !! l = Some ch ∧ Chunk.isInitialized ch = false)).
Proof.
  split.
  - intros fuel count chunk rest ch Hq Hch Hcount w0 w1. split_and!.
    + rewrite whileLoop_S, Hq. rewrite bool_decide_eq_true_2 by done.
      by rewrite bool_decide_eq_true_2 by (simpl; lia).
    + intros Hp. subst w1 w0. unfold World.meshDirtyChunk. simpl. by rewrite Hch, Hp.
    + intros Hp Hi. subst w1 w0.
      rewrite (meshDirtyChunk_uninitialized chunk ch) by done. simpl.
      unfold World.requestChunkData. simpl. by destruct (World.generator w).
    + intros Hp Hi Hm. subst w1 w0. unfold World.meshDirtyChunk. simpl.
      by rewrite Hch, Hp, Hi, Hm.
    + intros Hp Hi Hm. subst w1 w0. unfold World.meshDirtyChunk. simpl.
      by rewrite Hch, Hp, Hi, Hm.
  - intros l1 l2 l3 l4 l5 Hmax Hq Hnd Hall w'.
    assert (l1 ≠ l2) as Hne.
    { apply NoDup_cons in Hnd as [Hnd _]. intros ->. apply Hnd. left. }
    destruct (Hall l1) as (ch1 & Hch1 & Hp1 & Hi1); [left|].
    destruct (Hall l2) as (ch2 & Hch2 & Hp2 & Hi2); [right; left|].
    subst w'. unfold World.meshDirtyChunks. rewrite Hq, Hmax. simpl.
    rewrite Hmax, Hq. simpl.
    set (w0 := World.set_dirtyChunks [l2; l3; l4; l5] w).
    assert (World.heap w0 !! l1 = Some ch1) as Hch1' by done.
    rewrite (meshDirtyChunk_uninitialized l1 ch1 w0 Hch1' Hp1 Hi1). simpl.
    pose proof (evolves_requestChunkData l1 w0) as (Ho1&Hg1&_).
    rewrite Ho1. simpl. rewrite Hmax. simpl.
    set (w1 := World.requestChunkData l1 w0) in *.
    set (w2 := World.set_dirtyChunks [l3; l4; l5; l1] w1).
    destruct (isInitialized_requestChunkData l1 w0 l2 ch2) as (ch2' & Hch2' & _ & Heq);
      [done|]. rewrite Heq in Hch2' by done.
    assert (World.heap w2 !! l2 = Some ch2) as Hch2'' by done.
    rewrite (meshDirtyChunk_uninitialized l2 ch2 w2 Hch2'' Hp2 Hi2). simpl.
    split_and!.
    + done.
    + exists [requestEvent (World.generator w) l1; requestEvent (World.generator w) l2].
      split_and!.
      * rewrite trace_requestChunkData. simpl. fold w1.
        unfold w1 at 1. rewrite trace_requestChunkData. simpl.
        rewrite <-app_assoc. simpl. do 3 f_equal. by rewrite Hg1.
      * by destruct (World.generator w).
      * by destruct (World.generator w).
    + intros l Hl. destruct (Hall l Hl) as (ch & Hch & _ & Hi).
      destruct (isInitialized_requestChunkData l1 w0 l ch) as (ch' & Hch' & Hi' & _);
        [done|]. fold w1 in Hch'.
      destruct (isInitialized_requestChunkData l2 w2 l ch') as (ch'' & Hch'' & Hi'' & _);
        [done|].
      exists ch''. split; [done|]. congruence.
Qed.

End DrainEntries.

(** ** The readiness sweep *)

Section Sweep.
Context {scene : Chunk.Scene}.

Lemma sweepChunk_table chunk ch w :
  World.heap w !! chunk = Some ch →
  World.chunks (World.sweepChunk chunk ch w) = World.chunks w ∧
  World.trace (World.sweepChunk chunk ch w)
  = World.trace w ++ actionEvents (sweepDecision ch) chunk ∧
  World.heap (World.sweepChunk chunk ch w) = alter sweepEffect chunk (World.heap w).
Proof.
  intros Hch. unfold World.sweepChunk, sweepEffect, sweepDecision.
  assert (∀ f : Chunk.t → Chunk.t, f ch = ch → World.heap w = alter f chunk (World.heap w))
    as Hid.
  { intros f Hf. apply list_eq. intros i. destruct (decide (chunk = i)) as [<-|].
    - by rewrite list_lookup_alter_eq, Hch; simpl; rewrite Hf.
    - by rewrite list_lookup_alter_ne. }
  assert (∀ f g : Chunk.t → Chunk.t, f ch = g ch →
            alter f chunk (World.heap w) = alter g chunk (World.heap w)) as Hext.
  { intros f g Hfg. apply list_eq. intros i. destruct (decide (chunk = i)) as [<-|].
    - by rewrite !list_lookup_alter_eq, Hch; simpl; rewrite Hfg.
    - by rewrite !list_lookup_alter_ne. }
  destruct (Chunk.isInitialized ch) eqn:Hi, (Chunk.isDirty ch) eqn:Hd,
    (Chunk.isAdded ch) eqn:Ha, (Chunk.isMeshing ch) eqn:Hm;
    simpl; rewrite ?app_nil_r;
    (split; [done|]); (split; [done|]);
    first [apply Hid|apply Hext]; simpl; by rewrite Hi, ?Hd, ?Ha, ?Hm.
Qed.

Lemma sweepVisit_spec x y z w :
  World.chunks (World.sweepVisit x y z w) = World.chunks w ∧
  World.trace (World.sweepVisit x y z w) = World.trace w ++ sweepEventsAt w (x, y, z) ∧
  World.heap (World.sweepVisit x y z w)
  = match World.getChunkByCPos w (x, y, z) with
    | Some chunk => alter sweepEffect chunk (World.heap w)
    | None => World.heap w
    end.
Proof.
  unfold World.sweepVisit, sweepEventsAt.
  destruct (World.getChunkByCPos w (x, y, z)) as [chunk|]; [|by rewrite app_nil_r].
  destruct (World.heap w !! chunk) as [ch|] eqn:Hch.
  - by apply sweepChunk_table.
  - rewrite app_nil_r. split_and!; try done.
    apply list_eq. intros i. destruct (decide (chunk = i)) as [<-|].
    + by rewrite list_lookup_alter_eq, Hch.
    + by rewrite list_lookup_alter_ne.
Qed.

(** One pass of the sweep over distinct coordinates: each chunk found is
    judged on the flags it had at the start. *)
Lemma sweep_fold ps :
  NoDup ps → ∀ w, store_inj (World.chunks w) →
  let w' := foldl (at3 World.sweepVisit) w ps in
  World.chunks w' = World.chunks w ∧
  World.trace w' = World.trace w ++ (ps ≫= sweepEventsAt w) ∧
  (∀ p chunk, p ∈ ps → World.getChunkByCPos w p = Some chunk →
     World.heap w' !! chunk = sweepEffect <$> World.heap w !! chunk) ∧
  (∀ chunk, (∀ p, p ∈ ps → World.getChunkByCPos w p ≠ Some chunk) →
     World.heap w' !! chunk = World.heap w !! chunk).
Proof.
  induction 1 as [|p ps Hp Hnd IH]; intros w Hinj.
  { simpl. rewrite app_nil_r. split_and!; try done.
    intros p chunk Hp. by apply elem_of_nil in Hp. }
  destruct p as [[x y] z]. cbn [foldl at3]. rewrite bind_cons.
  destruct (sweepVisit_spec x y z w) as (Hc1 & Ht1 & Hh1).
  set (w1 := World.sweepVisit x y z w) in *.
  assert (∀ q, World.getChunkByCPos w1 q = World.getChunkByCPos w q) as Hget.
  { intros q. unfold World.getChunkByCPos, World.getChunkByName. by rewrite Hc1. }
  assert (∀ q chunk, q ≠ (x, y, z) → World.getChunkByCPos w q = Some chunk →
            World.heap w1 !! chunk = World.heap w !! chunk) as Hother.
  { intros q chunk Hq Hqc. rewrite Hh1.
    destruct (World.getChunkByCPos w (x, y, z)) as [chunk0|] eqn:Hpc; [|done].
    apply list_lookup_alter_ne. intros ->. apply Hq.
    apply getChunkName_inj. by eapply Hinj. }
  destruct (IH w1) as (Hc & Ht & Hin & Hout); [by rewrite Hc1|].
  split_and!.
  - congruence.
  - rewrite Ht, Ht1, <-app_assoc. do 2 f_equal.
    apply Forall_bind_ext, Forall_forall. intros q Hq.
    assert (q ≠ (x, y, z)) as Hne by (intros ->; done).
    unfold sweepEventsAt. rewrite Hget.
    destruct (World.getChunkByCPos w q) as [chunk|] eqn:Hqc; [|done].
    by rewrite (Hother q chunk).
  - intros q chunk Hq Hqc. apply elem_of_cons in Hq as [->|Hq].
    + rewrite Hout.
      * by rewrite Hh1, Hqc, list_lookup_alter_eq.
      * intros q Hq. rewrite Hget. intros Hqc'. apply Hp.
        assert (q = (x, y, z)) as -> by (apply getChunkName_inj; by eapply Hinj).
        done.
    + assert (q ≠ (x, y, z)) as Hne by (intros ->; done).
      rewrite (Hin q chunk Hq) by (by rewrite Hget).
      by rewrite (Hother q chunk).
  - intros chunk Hnot. rewrite Hout.
    + rewrite Hh1. destruct (World.getChunkByCPos w (x, y, z)) as [chunk0|] eqn:Hpc; [|done].
      apply list_lookup_alter_ne. intros ->. by apply (Hnot (x, y, z)); [left|].
    + intros q Hq. rewrite Hget. apply Hnot. by right.
Qed.

Lemma sweep_region R w cx cy cz :
  World.camChunkPos w = Some (cx, cy, cz) →
  World.sweep R w = Some (foldl (at3 World.sweepVisit) w (region (cx, cy, cz) R)).
Proof.
  intros Hc. unfold World.sweep. rewrite Hc. simpl.
  rewrite forRange3_cube. unfold World.sweepAt, region.
  by rewrite <-foldl_skip_outside.
Qed.

(** C4. The sweep goes through the coordinates of the sphere around the
    camera chunk and, for each chunk it finds there, takes the action of the
    decision table on the flags the chunk has when the sweep starts,
    whatever it does to the other chunks: nothing for an uninitialized
    chunk; adding to the scene for an initialized, clean chunk that is not
    added; nothing for one that is added; a mesh build for an initialized,
    dirty chunk that is not meshing; nothing for one that is. No other chunk
    object changes and the calls are made in loop order. *)
Theorem C4_readiness_sweep (w : World.t) (c : Coords3) :
  let R := WorldOptions.renderRadius (World.options w) in
  store_inj (World.chunks w) →
  0 ≤ R →
  World.camChunkPos w = Some c →
  ∃ w', World.sweep R w = Some w' ∧
    w' = foldl (at3 World.sweepVisit) w (region c R) ∧
    (∀ p, p ∈ region c R ↔ sqDist c p ≤ R * R) ∧
    World.trace w' = World.trace w ++ (region c R ≫= sweepEventsAt w) ∧
    (∀ p chunk ch,
       sqDist c p ≤ R * R →
       World.getChunkByCPos w p = Some chunk →
       World.heap w !! chunk = Some ch →
       let action := decisionTable (Chunk.isInitialized ch) (Chunk.isDirty ch)
                       (Chunk.isAdded ch) (Chunk.isMeshing ch) in
       sweepEventsAt w p = actionEvents action chunk ∧
       World.heap w' !! chunk = Some (actionEffect action ch)) ∧
    (∀ chunk,
       (∀ p, sqDist c p ≤ R * R → World.getChunkByCPos w p ≠ Some chunk) →
       World.heap w' !! chunk = World.heap w !! chunk).
Proof.
  intros R Hinj HR Hc. destruct c as [[cx cy] cz].
  eexists. split; [by apply sweep_region|].
  destruct (sweep_fold (region (cx, cy, cz) R) (NoDup_region _ _) w Hinj)
    as (_ & Ht & Hin & Hout).
  split_and!; try done.
  - intros p. by apply elem_of_region.
  - intros p chunk ch Hd Hpc Hch. simpl. split.
    + unfold sweepEventsAt. by rewrite Hpc, Hch.
    + rewrite (Hin p chunk); [by rewrite Hch| |done]. by apply elem_of_region.
  - intros chunk Hnot. apply Hout. intros p Hp. apply Hnot.
    by apply elem_of_region in Hp.
Qed.

End Sweep.

(** ** Voxel edits *)

Lemma wf_store_inj w : wf w → store_inj (World.chunks w).
Proof.
  intros Hwf n1 n2 l H1 H2.
  destruct (Hwf n1 l H1) as (ch1 & Hch1 & -> & _).
  destruct (Hwf n2 l H2) as (ch2 & Hch2 & -> & _). congruence.
Qed.

Lemma wf_getChunkByCPos w p l :
  wf w → World.getChunkByCPos w p = Some l →
  ∃ ch, World.heap w !! l = Some ch ∧ Chunk.coords ch = p ∧
    Chunk.size ch = WorldOptions.chunkSize (World.options w) ∧
    Chunk.padding ch = WorldOptions.chunkPadding (World.options w).
Proof.
  intros Hwf Hl. destruct (Hwf _ l Hl) as (ch & Hch & Hn & _ & Hs & Hp).
  apply getChunkName_inj in Hn. eauto.
Qed.

Lemma elem_of_if_singleton {A} (b : bool) (x y : A) :
  x ∈ (if b then [y] else []) ↔ b = true ∧ x = y.
Proof.
  destruct b; rewrite ?list_elem_of_singleton, ?elem_of_nil; intuition discriminate.
Qed.

Lemma elem_of_nearFaces size pad lx ly lz F :
  F ∈ nearFaces size pad (lx, ly, lz) ↔
  match F with
  | XMin => lx < pad | YMin => ly < pad | ZMin => lz < pad
  | XMax => lx >= size - pad | YMax => ly >= size - pad | ZMax => lz >= size - pad
  end.
Proof.
  unfold nearFaces. rewrite !elem_of_app, !elem_of_if_singleton, !bool_decide_eq_true.
  destruct F; intuition discriminate.
Qed.

(** The neighbours the code collects are the chunks across the near faces. *)
Lemma getNeighborChunksByVoxel_faces w v :
  let size := WorldOptions.chunkSize (World.options w) in
  let pad := WorldOptions.chunkPadding (World.options w) in
  World.getNeighborChunksByVoxel w v
  = omap (λ F, World.getChunkByCPos w (across (Helper.mapVoxelPosToChunkPos v size) F))
      (nearFaces size pad (Helper.mapVoxelPosToChunkLocalPos v size)).
Proof.
  intros size pad. unfold World.getNeighborChunksByVoxel, nearFaces.
  fold size pad.
  destruct (Helper.mapVoxelPosToChunkPos v size) as [[cx cy] cz].
  destruct (Helper.mapVoxelPosToChunkLocalPos v size) as [[lx ly] lz].
  repeat case_bool_decide; reflexivity.
Qed.

Lemma elem_of_getNeighborChunksByVoxel w v l :
  let size := WorldOptions.chunkSize (World.options w) in
  let pad := WorldOptions.chunkPadding (World.options w) in
  l ∈ World.getNeighborChunksByVoxel w v ↔
  ∃ F, F ∈ nearFaces size pad (Helper.mapVoxelPosToChunkLocalPos v size) ∧
    World.getChunkByCPos w (across (Helper.mapVoxelPosToChunkPos v size) F) = Some l.
Proof. intros size pad. rewrite getNeighborChunksByVoxel_faces. apply list_elem_of_omap. Qed.

Lemma Chunk_setVoxel_idem ch v ty :
  Chunk.setVoxel (Chunk.setVoxel ch v ty) v ty = Chunk.setVoxel ch v ty.
Proof.
  unfold Chunk.setVoxel. destruct (Chunk.contains ch v) eqn:Hc; [|by rewrite Hc].
  match goal with |- (if ?b then _ else _) = _ => change b with (Chunk.contains ch v) end.
  rewrite Hc. unfold Chunk.set_isDirty, Chunk.set_voxels, Chunk.toLocal. simpl.
  by rewrite insert_insert_eq.
Qed.

Lemma Chunk_getVoxel_setVoxel ch v ty :
  Chunk.contains ch v = true → Chunk.getVoxel (Chunk.setVoxel ch v ty) v = Some ty.
Proof.
  intros Hc. unfold Chunk.getVoxel, Chunk.setVoxel. rewrite Hc.
  match goal with |- (if ?b then _ else _) = _ => change b with (Chunk.contains ch v) end.
  rewrite Hc. unfold Chunk.toLocal. simpl. by rewrite lookup_insert_eq.
Qed.

(** The same idempotent method called on the chunks of a list. *)
Lemma heap_foldl_onChunk (f : Chunk.t → Chunk.t) ls w l :
  (∀ ch, f (f ch) = f ch) →
  World.heap (foldl (λ w c, World.onChunk f c w) w ls) !! l
  = if decide (l ∈ ls) then f <$> World.heap w !! l else World.heap w !! l.
Proof.
  intros Hf. revert w. induction ls as [|c ls IH]; intros w.
  { destruct (decide (l ∈ [])) as [Hin|]; [by apply elem_of_nil in Hin|done]. }
  cbn [foldl]. rewrite IH.
  assert (World.heap (World.onChunk f c w) = alter f c (World.heap w)) as -> by done.
  destruct (decide (c = l)) as [->|Hne].
  - rewrite list_lookup_alter_eq. rewrite (decide_True (P := l ∈ l :: ls)) by left.
    case_decide; [|done]. destruct (World.heap w !! l); simpl; [|done]. by rewrite Hf.
  - rewrite list_lookup_alter_ne by done.
    destruct (decide (l ∈ ls)) as [Hin|Hnin].
    + by rewrite decide_True by (by right).
    + rewrite decide_False; [done|]. intros [?|?]%elem_of_cons; congruence.
Qed.

Lemma heap_foldl_checkNeighbor v ty ls w :
  World.heap (foldl (World.checkNeighbor v ty) w ls) = World.heap w.
Proof.
  apply foldl_preserves. intros w1 c. unfold World.checkNeighbor.
  destruct (World.heap w1 !! c); [|done]. by case_decide.
Qed.

(** A voxel edit calls [Chunk.setVoxel] on the owning chunk, when there is
    one, and on the neighbours collected, and on no other chunk object. *)
Lemma setVoxel_heap v ty w l :
  World.heap (World.setVoxel v ty w) !! l
  = if decide (l ∈ option_list (World.getChunkByVoxel w v)
                   ++ World.getNeighborChunksByVoxel w v)
    then (λ ch, Chunk.setVoxel ch v ty) <$> World.heap w !! l
    else World.heap w !! l.
Proof.
  unfold World.setVoxel. rewrite heap_foldl_checkNeighbor.
  rewrite <-(heap_foldl_onChunk (λ ch, Chunk.setVoxel ch v ty))
    by (intros; apply Chunk_setVoxel_idem).
  rewrite foldl_app. by destruct (World.getChunkByVoxel w v).
Qed.

Lemma setVoxel_no_mismatch v ty w :
  (∀ l, l ∈ World.getNeighborChunksByVoxel w v →
     ∃ ch, World.heap (World.setVoxel v ty w) !! l = Some ch ∧
       Chunk.getVoxel ch v = Some ty) →
  World.trace (World.setVoxel v ty w) = World.trace w.
Proof.
  intros Hok.
  assert (∀ ls w1,
    (∀ l, l ∈ ls → ∃ ch, World.heap w1 !! l = Some ch ∧ Chunk.getVoxel ch v = Some ty) →
    foldl (World.checkNeighbor v ty) w1 ls = w1) as Hfold.
  { induction ls as [|l ls IH]; intros w1 Hls; [done|]. simpl.
    destruct (Hls l) as (ch & Hch & Hget); [left|].
    unfold World.checkNeighbor at 2. rewrite Hch, Hget.
    rewrite decide_False by (intros Hne; by apply Hne).
    apply IH. intros l' Hl'. apply Hls. by right. }
  unfold World.setVoxel in *.
  set (w1 := match World.getChunkByVoxel w v with
             | Some chunk => World.onChunk (λ ch, Chunk.setVoxel ch v ty) chunk w
             | None => w
             end) in *.
  assert (World.getNeighborChunksByVoxel w1 v = World.getNeighborChunksByVoxel w v) as Hn.
  { subst w1. by destruct (World.getChunkByVoxel w v). }
  rewrite Hn in *.
  set (w2 := foldl _ w1 _) in *.
  rewrite heap_foldl_checkNeighbor in Hok. rewrite (Hfold _ w2 Hok).
  subst w2. rewrite (foldl_preserves World.trace) by done.
  subst w1. by destruct (World.getChunkByVoxel w v).
Qed.

(** A chunk across a near face covers the voxel with its ghost margin. *)
Lemma neighbor_contains size pad v F ch :
  0 < size →
  F ∈ nearFaces size pad (Helper.mapVoxelPosToChunkLocalPos v size) →
  Chunk.coords ch = across (Helper.mapVoxelPosToChunkPos v size) F →
  Chunk.size ch = size →
  Chunk.padding ch = pad →
  Chunk.contains ch v = true.
Proof.
  intros Hsize HF Hc Hs Hp. destruct v as [[vx vy] vz].
  unfold Helper.mapVoxelPosToChunkLocalPos, Helper.mapVoxelPosToChunkPos in *.
  apply elem_of_nearFaces in HF.
  unfold Chunk.contains, Chunk.toLocal. rewrite Hc, Hs, Hp.
  pose proof (Z.div_mod vx size). pose proof (Z.mod_pos_bound vx size).
  pose proof (Z.div_mod vy size). pose proof (Z.mod_pos_bound vy size).
  pose proof (Z.div_mod vz size). pose proof (Z.mod_pos_bound vz size).
  destruct F; simpl; rewrite !andb_true_iff, !bool_decide_eq_true; lia.
Qed.

(** C5 (as the code has it). When a voxel edit finds no owning chunk, it
    still writes the voxel into the chunks across the faces the position is
    near: these get the [Chunk.setVoxel] call, every other chunk object is
    left as it is, and with no such neighbour in the store the edit changes
    nothing at all. *)
Theorem C5_edit_without_owner (w : World.t) (v : Coords3) (type : Z) :
  World.getChunkByVoxel w v = None →
  let w' := World.setVoxel v type w in
  (∀ l, l ∈ World.getNeighborChunksByVoxel w v →
     World.heap w' !! l = (λ ch, Chunk.setVoxel ch v type) <$> World.heap w !! l) ∧
  (∀ l, l ∉ World.getNeighborChunksByVoxel w v →
     World.heap w' !! l = World.heap w !! l) ∧
  (World.getNeighborChunksByVoxel w v = [] → w' = w) ∧
  World.chunks w' = World.chunks w ∧
  World.dirtyChunks w' = World.dirtyChunks w.
Proof.
  intros Hown w'. split_and!.
  - intros l Hl. subst w'. rewrite setVoxel_heap, Hown. simpl. by rewrite decide_True.
  - intros l Hl. subst w'. rewrite setVoxel_heap, Hown. simpl. by rewrite decide_False.
  - intros Hn. subst w'. unfold World.setVoxel. by rewrite Hown, Hn.
  - by pose proof (evolves_setVoxel v type w) as (_&_&_&_&?&_).
  - subst w'. unfold World.setVoxel. rewrite !(foldl_preserves World.dirtyChunks).
    + by destruct (World.getChunkByVoxel w v).
    + done.
    + intros w1 c. unfold World.checkNeighbor.
      destruct (World.heap w1 !! c); [|done]. by case_decide.
Qed.

(** C6. A voxel edit writes the same voxel and type into the chunk across
    each face the local position is within [padding] of, when the store has
    that chunk, and into no chunk at any other coordinate than the owning
    one: with one near face, the single neighbour across it; with three, the
    three neighbours across them; never a chunk that shares no face with the
    owning chunk, and never a chunk object the store does not hold. *)
Theorem C6_boundary_propagation (w : World.t) (v : Coords3) (type : Z) :
  let size := WorldOptions.chunkSize (World.options w) in
  let pad := WorldOptions.chunkPadding (World.options w) in
  let c := Helper.mapVoxelPosToChunkPos v size in
  let near := nearFaces size pad (Helper.mapVoxelPosToChunkLocalPos v size) in
  let write := λ ch, Chunk.setVoxel ch v type in
  let w' := World.setVoxel v type w in
  store_inj (World.chunks w) →
  World.getNeighborChunksByVoxel w v
  = omap (λ F, World.getChunkByCPos w (across c F)) near ∧
  (∀ F l, F ∈ near → World.getChunkByCPos w (across c F) = Some l →
     World.heap w' !! l = write <$> World.heap w !! l) ∧
  (∀ F, near = [F] →
     ∀ q l, q ≠ c → q ≠ across c F → World.getChunkByCPos w q = Some l →
       World.heap w' !! l = World.heap w !! l) ∧
  (∀ F1 F2 F3, near = [F1; F2; F3] →
     ∀ q l, q ≠ c → q ≠ across c F1 → q ≠ across c F2 → q ≠ across c F3 →
       World.getChunkByCPos w q = Some l →
       World.heap w' !! l = World.heap w !! l) ∧
  (∀ q l, q ≠ c → (∀ F, q ≠ across c F) → World.getChunkByCPos w q = Some l →
     World.heap w' !! l = World.heap w !! l) ∧
  (∀ l, (∀ q, World.getChunkByCPos w q ≠ Some l) →
     World.heap w' !! l = World.heap w !! l).
Proof.
  intros size pad c near write w' Hinj.
  assert (∀ l, l ∈ option_list (World.getChunkByVoxel w v)
                   ++ World.getNeighborChunksByVoxel w v →
            World.getChunkByCPos w c = Some l ∨
            ∃ F, F ∈ near ∧ World.getChunkByCPos w (across c F) = Some l) as Hwritten.
  { intros l [Hl|Hl]%elem_of_app.
    - left. unfold World.getChunkByVoxel in Hl. fold size c in Hl.
      destruct (World.getChunkByCPos w c) as [l0|]; simpl in Hl.
      + by apply list_elem_of_singleton in Hl as ->.
      + by apply elem_of_nil in Hl.
    - right. by apply elem_of_getNeighborChunksByVoxel in Hl. }
  assert (∀ q l, q ≠ c → (∀ F, F ∈ near → q ≠ across c F) →
            World.getChunkByCPos w q = Some l →
            World.heap w' !! l = World.heap w !! l) as Hother.
  { intros q l Hqc Hq Hl. subst w'. rewrite setVoxel_heap.
    rewrite decide_False; [done|]. intros [Ho|(F & HF & Hn)]%Hwritten.
    - apply Hqc, getChunkName_inj. by eapply Hinj.
    - apply (Hq F HF), getChunkName_inj. by eapply Hinj. }
  split_and!.
  - apply getNeighborChunksByVoxel_faces.
  - intros F l HF Hl. subst w'. rewrite setVoxel_heap. rewrite decide_True; [done|].
    apply elem_of_app. right. apply elem_of_getNeighborChunksByVoxel. eauto.
  - intros F Hnear q l Hqc Hq. apply Hother; [done|].
    intros F' HF'. change (F' ∈ near) in HF'. rewrite Hnear in HF'.
    by apply list_elem_of_singleton in HF' as ->.
  - intros F1 F2 F3 Hnear q l Hqc Hq1 Hq2 Hq3. apply Hother; [done|].
    intros F' HF'. change (F' ∈ near) in HF'. rewrite Hnear in HF'.
    rewrite !elem_of_cons, elem_of_nil in HF'. by destruct HF' as [->|[->|[->|[]]]].
  - intros q l Hqc Hq. apply Hother; [done|]. intros F _. apply Hq.
  - intros l Hl. subst w'. rewrite setVoxel_heap.
    rewrite decide_False; [done|]. intros [Ho|(F & HF & Hn)]%Hwritten; by eapply Hl.
Qed.

(** C7. After a voxel edit, every neighbour chunk that received the write
    reads back the written type at that voxel, and the consistency loop
    prints nothing, in a world whose stored chunks have the coordinates of
    their names and the size and padding of the options. *)
Theorem C7_neighbors_read_back (w : World.t) (v : Coords3) (type : Z) :
  wf w →
  0 < WorldOptions.chunkSize (World.options w) →
  let w' := World.setVoxel v type w in
  (∀ l, l ∈ World.getNeighborChunksByVoxel w v →
     ∃ ch, World.heap w' !! l = Some ch ∧ Chunk.getVoxel ch v = Some type) ∧
  World.trace w' = World.trace w.
Proof.
  intros Hwf Hsize w'.
  assert (∀ l, l ∈ World.getNeighborChunksByVoxel w v →
     ∃ ch, World.heap w' !! l = Some ch ∧ Chunk.getVoxel ch v = Some type) as Hok.
  { intros l Hl. subst w'. rewrite setVoxel_heap.
    rewrite decide_True by (apply elem_of_app; by right).
    apply elem_of_getNeighborChunksByVoxel in Hl as (F & HF & Hl).
    destruct (wf_getChunkByCPos w _ l Hwf Hl) as (ch & Hch & Hc & Hs & Hp).
    rewrite Hch. simpl. eexists. split; [done|].
    apply Chunk_getVoxel_setVoxel. by eapply neighbor_contains. }
  split; [done|]. by apply setVoxel_no_mismatch.
Qed.

(** ** The store invariant *)

Lemma keeps_chunks_refl w : keeps_chunks w w.
Proof. unfold keeps_chunks. split_and!; eauto 10. Qed.

Lemma keeps_chunks_trans w1 w2 w3 :
  keeps_chunks w1 w2 → keeps_chunks w2 w3 → keeps_chunks w1 w3.
Proof.
  intros (Ho1 & Hc1 & Hh1) (Ho2 & Hc2 & Hh2). split_and!; [congruence..|].
  intros l ch Hch. destruct (Hh1 l ch Hch) as (ch' & Hch' & ? & ? & ? & ?).
  destruct (Hh2 l ch' Hch') as (ch'' & Hch'' & ? & ? & ? & ?).
  exists ch''. split_and!; congruence.
Qed.

Lemma keeps_chunks_foldl {A} (f : World.t → A → World.t) (ls : list A) w :
  (∀ w x, keeps_chunks w (f w x)) → keeps_chunks w (foldl f w ls).
Proof.
  intros Hf. revert w. induction ls as [|x ls IH]; intros w; simpl.
  - apply keeps_chunks_refl.
  - eapply keeps_chunks_trans; [apply Hf|apply IH].
Qed.

Lemma keeps_chunks_wf w w' : wf w → keeps_chunks w w' → wf w'.
Proof.
  intros Hwf (Ho & Hc & Hh) n l Hl. rewrite Hc in Hl.
  destruct (Hwf n l Hl) as (ch & Hch & Hn & Hnm & Hs & Hp).
  destruct (Hh l ch Hch) as (ch' & Hch' & Hc' & Hn' & Hs' & Hp').
  exists ch'. rewrite Ho. split_and!; congruence.
Qed.

Lemma keeps_chunks_onChunk f c w : keeps_shape f → keeps_chunks w (World.onChunk f c w).
Proof.
  intros Hf. split_and!; [done..|]. intros l ch Hch. simpl.
  destruct (decide (c = l)) as [->|Hne].
  - rewrite list_lookup_alter_eq, Hch. simpl. exists (f ch). split; [done|]. apply Hf.
  - rewrite list_lookup_alter_ne by done. eauto 10.
Qed.

Lemma keeps_chunks_fields w w' :
  World.options w' = World.options w →
  World.chunks w' = World.chunks w →
  World.heap w' = World.heap w →
  keeps_chunks w w'.
Proof. intros Ho Hc Hh. split_and!; [done..|]. rewrite Hh. eauto 10. Qed.

Lemma keeps_shape_setVoxel v ty : keeps_shape (λ ch, Chunk.setVoxel ch v ty).
Proof. intros ch. unfold Chunk.setVoxel. by destruct (Chunk.contains ch v). Qed.

Lemma keeps_chunks_requestChunkData c w : keeps_chunks w (World.requestChunkData c w).
Proof.
  unfold World.requestChunkData. destruct (World.generator w).
  - by apply keeps_chunks_fields.
  - set (w1 := World.onChunk (Chunk.set_isEmpty false) c w).
    set (w2 := World.onChunk (Chunk.set_isPending true) c w1).
    apply (keeps_chunks_trans _ w1); [apply keeps_chunks_onChunk; by intros ?|].
    apply (keeps_chunks_trans _ w2); [apply keeps_chunks_onChunk; by intros ?|].
    by apply keeps_chunks_fields.
Qed.

Lemma keeps_chunks_setVoxel v ty w : keeps_chunks w (World.setVoxel v ty w).
Proof.
  unfold World.setVoxel.
  eapply keeps_chunks_trans; [|apply keeps_chunks_foldl].
  - eapply keeps_chunks_trans; [|apply keeps_chunks_foldl].
    + destruct (World.getChunkByVoxel w v); [|apply keeps_chunks_refl].
      apply keeps_chunks_onChunk, keeps_shape_setVoxel.
    + intros. apply keeps_chunks_onChunk, keeps_shape_setVoxel.
  - intros w1 c. unfold World.checkNeighbor.
    destruct (World.heap w1 !! c); [|apply keeps_chunks_refl].
    case_decide; [by apply keeps_chunks_fields|apply keeps_chunks_refl].
Qed.

(** The store of a new world is empty. *)
Lemma wf_new options : wf (World.new options).
Proof. intros n l Hl. simpl in Hl. by rewrite lookup_empty in Hl. Qed.

(** A voxel edit keeps the invariant. *)
Lemma wf_setVoxel v ty w : wf w → wf (World.setVoxel v ty w).
Proof. intros Hwf. eapply keeps_chunks_wf; [done|apply keeps_chunks_setVoxel]. Qed.

Lemma wf_createChunkAt dim x y z w :
  wf w →
  wf (World.createChunkAt dim (WorldOptions.chunkSize (World.options w))
        (WorldOptions.chunkPadding (World.options w)) x y z w) ∧
  World.options (World.createChunkAt dim (WorldOptions.chunkSize (World.options w))
        (WorldOptions.chunkPadding (World.options w)) x y z w) = World.options w.
Proof.
  intros Hwf. unfold World.createChunkAt.
  destruct (World.getChunkByCPos w (x, y, z)) as [l|] eqn:Hl; [done|].
  unfold World.setChunk. simpl. rewrite lookup_app_r, Nat.sub_diag by done. simpl.
  split; [|done]. intros n l' Hl'. simpl in *.
  apply lookup_insert_Some in Hl' as [[<- <-]|[Hne Hl']].
  - rewrite lookup_app_r, Nat.sub_diag by done. simpl. eauto 10.
  - destruct (Hwf n l' Hl') as (ch & Hch & ?). exists ch.
    by rewrite lookup_app_l by (by eapply lookup_lt_Some).
Qed.

Lemma wf_surroundCamChunks w w' :
  wf w → World.surroundCamChunks w = Some w' →
  wf w' ∧ World.options w' = World.options w.
Proof.
  intros Hwf Hs. destruct (World.camChunkPos w) as [[[cx cy] cz]|] eqn:Hc.
  - rewrite (surroundCamChunks_region w cx cy cz Hc) in Hs. injection Hs as <-.
    generalize (region (cx, cy, cz) (WorldOptions.renderRadius (World.options w))).
    intros ps.
    set (dim := WorldOptions.dimension (World.options w)).
    set (size := WorldOptions.chunkSize (World.options w)).
    set (pad := WorldOptions.chunkPadding (World.options w)).
    assert (∀ w1, wf w1 → World.options w1 = World.options w →
              wf (foldl (at3 (World.createChunkAt dim size pad)) w1 ps) ∧
              World.options (foldl (at3 (World.createChunkAt dim size pad)) w1 ps)
              = World.options w) as Hgen; [|by apply Hgen].
    induction ps as [|[[x y] z] ps IH]; intros w1 Hwf1 Ho1; [done|].
    simpl. apply IH.
    + subst size pad. rewrite <-Ho1. by apply wf_createChunkAt.
    + subst size pad. rewrite <-Ho1 at 3. rewrite <-Ho1. by apply wf_createChunkAt.
  - unfold World.surroundCamChunks in Hs. by rewrite Hc in Hs.
Qed.

Section Invariant.
Context {scene : Chunk.Scene}.
Hypothesis addToScene_shape : keeps_shape Chunk.addToScene.
Hypothesis buildMesh_shape : keeps_shape Chunk.buildMesh.

Lemma keeps_chunks_callAddToScene c w : keeps_chunks w (World.callAddToScene c w).
Proof.
  unfold World.callAddToScene.
  apply (keeps_chunks_trans _ (World.onChunk Chunk.addToScene c w));
    [by apply keeps_chunks_onChunk|by apply keeps_chunks_fields].
Qed.

Lemma keeps_chunks_callBuildMesh c w : keeps_chunks w (World.callBuildMesh c w).
Proof.
  unfold World.callBuildMesh.
  apply (keeps_chunks_trans _ (World.onChunk Chunk.buildMesh c w));
    [by apply keeps_chunks_onChunk|by apply keeps_chunks_fields].
Qed.

Lemma keeps_chunks_sweep R w w' : World.sweep R w = Some w' → keeps_chunks w w'.
Proof.
  unfold World.sweep. destruct (World.camChunkPos w) as [[[cx cy] cz]|]; [|done].
  simpl. intros [= <-]. rewrite forRange3_cube. apply keeps_chunks_foldl.
  intros w1 [[x y] z]. simpl. unfold World.sweepAt, World.sweepVisit, World.sweepChunk.
  repeat case_match;
    auto using keeps_chunks_refl, keeps_chunks_callAddToScene, keeps_chunks_callBuildMesh.
Qed.

Lemma keeps_chunks_meshDirtyChunk c w : keeps_chunks w (World.meshDirtyChunk c w).
Proof.
  unfold World.meshDirtyChunk.
  destruct (World.heap w !! c) as [ch|]; [|apply keeps_chunks_refl].
  destruct (Chunk.isPending ch); [by apply keeps_chunks_fields|].
  destruct (Chunk.isInitialized ch); simpl.
  - destruct (Chunk.isMeshing ch); [apply keeps_chunks_refl|apply keeps_chunks_callBuildMesh].
  - eapply keeps_chunks_trans; [apply keeps_chunks_requestChunkData|].
    by apply keeps_chunks_fields.
Qed.

Lemma keeps_chunks_whileLoop fuel count w :
  keeps_chunks w (World.whileLoop fuel count w).
Proof.
  revert count w. induction fuel as [|fuel IH]; intros count w; simpl.
  { apply keeps_chunks_refl. }
  destruct (_ && _); [|apply keeps_chunks_refl].
  destruct (World.dirtyChunks w) as [|c rest] eqn:Hq; [apply keeps_chunks_refl|].
  eapply keeps_chunks_trans; [|apply IH].
  apply (keeps_chunks_trans _ (World.set_dirtyChunks rest w));
    [by apply keeps_chunks_fields|apply keeps_chunks_meshDirtyChunk].
Qed.

Lemma keeps_chunks_meshDirtyChunks w : keeps_chunks w (World.meshDirtyChunks w).
Proof.
  unfold World.meshDirtyChunks. case_bool_decide; [|apply keeps_chunks_refl].
  apply keeps_chunks_whileLoop.
Qed.

(** A tick keeps the invariant, when the scene methods keep the shape of the
    chunk. *)
Lemma wf_tick pos w w' : wf w → World.tick pos w = Some w' → wf w'.
Proof.
  intros Hwf. unfold World.tick.
  destruct (World.checkCamChunk pos w) as [w1|] eqn:Hc; [|done]. simpl. intros [= <-].
  eapply keeps_chunks_wf; [|apply keeps_chunks_meshDirtyChunks].
  unfold World.checkCamChunk in Hc. case_decide; simpl in Hc.
  - match type of Hc with context [World.surroundCamChunks ?w0] =>
      destruct (World.surroundCamChunks w0) as [w2|] eqn:Hs; [|done];
      apply wf_surroundCamChunks in Hs as [Hwf2 Ho2]
    end.
    + simpl in Hc. eapply keeps_chunks_wf; [exact Hwf2|by eapply keeps_chunks_sweep].
    + intros n l Hl. apply (Hwf n l Hl).
  - eapply keeps_chunks_wf; [exact Hwf|by eapply keeps_chunks_sweep].
Qed.

End Invariant.

Lemma eagerScene_shape :
  keeps_shape (@Chunk.addToScene Chunk.eagerScene) ∧
  keeps_shape (@Chunk.buildMesh Chunk.eagerScene).
Proof. by split; intros ?. Qed.

(** ** The properties at work *)

Lemma wf_firstTick options : wf (firstTick options).
Proof.
  unfold firstTick.
  destruct (World.tick (0, 0, 0) (World.new options)) as [w|] eqn:Ht; simpl.
  - eapply (wf_tick (scene := Chunk.eagerScene)); [apply eagerScene_shape..| |exact Ht].
    apply wf_new.
  - apply wf_new.
Qed.

Lemma wf_generationResolved chunk w : wf w → wf (World.generationResolved chunk w).
Proof.
  intros Hwf. eapply keeps_chunks_wf; [done|].
  apply keeps_chunks_onChunk. by intros ?.
Qed.

Lemma C2_drain_budget_witness :
  let w := camChecked (optionsWith 1 6 (Some sin_cos)) in
  Z.of_nat (length (World.dirtyChunks w))
  ≤ WorldOptions.maxChunkPerFrame (World.options w) + 1 ∧
  World.dirtyChunks w `prefix_of` World.shiftedEntries (scene := Chunk.eagerScene) w ∧
  World.dirtyChunks w = [6; 5; 4; 3; 2; 1; 0]%nat.
Proof.
  intros w.
  destruct (C2_drain_budget (scene := Chunk.eagerScene) w) as (_ & _ & Hall & _).
  assert (Z.of_nat (length (World.dirtyChunks w))
          ≤ WorldOptions.maxChunkPerFrame (World.options w) + 1) as Hlen
    by (vm_compute; discriminate).
  split; [exact Hlen|]. split; [exact (Hall Hlen)|vm_compute; reflexivity].
Defined.

Lemma C3_drain_entry_witness :
  let w := fiveQueued in
  WorldOptions.maxChunkPerFrame (World.options w) = 1 ∧
  World.dirtyChunks w = [4; 3; 2; 1; 0]%nat ∧
  World.dirtyChunks (World.meshDirtyChunks (scene := Chunk.eagerScene) w)
  = [2; 1; 0; 4; 3]%nat ∧
  ∃ evs, World.trace (World.meshDirtyChunks (scene := Chunk.eagerScene) w)
         = World.trace w ++ evs ∧ requested evs = [4; 3]%nat.
Proof.
  intros w.
  destruct (C3_drain_entry (scene := Chunk.eagerScene) w) as [_ Hscenario].
  destruct (Hscenario 4 3 2 1 0)%nat as (Hq & (evs & Ht & Hr & _) & _).
  - vm_compute. reflexivity.
  - vm_compute. reflexivity.
  - repeat (apply NoDup_cons_2; [rewrite ?elem_of_cons, elem_of_nil; lia|]).
    apply NoDup_nil_2.
  - intros l Hl. rewrite !elem_of_cons, elem_of_nil in Hl.
    destruct Hl as [->|[->|[->|[->|[->|[]]]]]]; eexists;
      (split; [vm_compute; reflexivity|done]).
  - split; [vm_compute; reflexivity|]. split; [vm_compute; reflexivity|].
    split; [exact Hq|].
    exists evs. by split.
Defined.

Lemma C4_readiness_sweep_witness :
  let w := World.generationResolved 6%nat (firstTick smallOptions) in
  store_inj (World.chunks w) ∧
  0 ≤ WorldOptions.renderRadius (World.options w) ∧
  World.camChunkPos w = Some (0, 0, 0) ∧
  ∃ w', World.sweep (scene := Chunk.eagerScene) 1 w = Some w' ∧
    World.trace w' = World.trace w ++ [CallBuildMesh 6%nat] ∧
    Chunk.isMeshing <$> World.heap w' !! 6%nat = Some true ∧
    World.heap w' !! 5%nat = World.heap w !! 5%nat.
Proof.
  intros w.
  assert (store_inj (World.chunks w)) as Hinj
    by apply wf_store_inj, wf_generationResolved, wf_firstTick.
  assert (0 ≤ WorldOptions.renderRadius (World.options w)) as HR
    by (vm_compute; discriminate).
  assert (World.camChunkPos w = Some (0, 0, 0)) as Hcam by (vm_compute; reflexivity).
  assert (WorldOptions.renderRadius (World.options w) = 1) as HR1
    by (vm_compute; reflexivity).
  destruct (C4_readiness_sweep (scene := Chunk.eagerScene) w (0, 0, 0) Hinj HR Hcam)
    as (w' & Hs & _ & _ & Ht & Hin & _).
  rewrite HR1 in Hs, Ht, Hin.
  split; [exact Hinj|]. split; [exact HR|]. split; [exact Hcam|].
  exists w'. split; [exact Hs|]. split; [rewrite Ht; vm_compute; reflexivity|].
  destruct (Hin (1, 0, 0) 6%nat (Chunk.initialized (Chunk.new (1, 0, 0) 32 1 2)))
    as [_ H6]; [vm_compute; discriminate|vm_compute; reflexivity..|].
  destruct (Hin (0, 1, 0) 5%nat (Chunk.new (0, 1, 0) 32 1 2))
    as [_ H5]; [vm_compute; discriminate|vm_compute; reflexivity..|].
  split; [rewrite H6; vm_compute; reflexivity|rewrite H5; vm_compute; reflexivity].
Defined.

(** C5, as the specification has it, fails: after the first tick of a world with the
    default options, the chunk at (4, 0, 0) is outside the sphere and the
    chunk at (3, 0, 0) inside; an edit of the voxel (128, 0, 0), first voxel
    of the missing chunk (4, 0, 0), writes into the ghost margin of the chunk
    at (3, 0, 0). *)
Lemma C5_counterexample :
  ¬ unowned_edit_is_noop (firstTick defaultWorldOptions) (128, 0, 0) 5.
Proof.
  intros Hnoop.
  assert (World.getChunkByVoxel (firstTick defaultWorldOptions) (128, 0, 0) = None) as Hown
    by (vm_compute; reflexivity).
  specialize (Hnoop Hown 122%nat).
  assert ((Chunk.voxels
             <$> World.heap (World.setVoxel (128, 0, 0) 5 (firstTick defaultWorldOptions))
                 !! 122%nat) ≫= (λ m, m !! (32, 0, 0)) = Some 5) as Hnew
    by (vm_compute; reflexivity).
  assert ((Chunk.voxels <$> World.heap (firstTick defaultWorldOptions) !! 122%nat)
            ≫= (λ m, m !! (32, 0, 0)) = None) as Hold
    by (vm_compute; reflexivity).
  rewrite Hnoop, Hold in Hnew. discriminate Hnew.
Qed.

Lemma C5_edit_without_owner_witness :
  let w := firstTick defaultWorldOptions in
  World.getChunkByVoxel w (128, 0, 0) = None ∧
  World.getNeighborChunksByVoxel w (128, 0, 0) = [122%nat] ∧
  (Chunk.getVoxel <$> World.heap (World.setVoxel (128, 0, 0) 5 w) !! 122%nat)
    ≫= (λ f, f (128, 0, 0)) = Some 5 ∧
  World.heap (World.setVoxel (128, 0, 0) 5 w) !! 121%nat = World.heap w !! 121%nat.
Proof.
  intros w.
  assert (World.getChunkByVoxel w (128, 0, 0) = None) as Hown by (vm_compute; reflexivity).
  assert (World.getNeighborChunksByVoxel w (128, 0, 0) = [122%nat]) as Hn
    by (vm_compute; reflexivity).
  destruct (C5_edit_without_owner w (128, 0, 0) 5 Hown) as (Hin & Hout & _).
  rewrite Hn in Hin, Hout.
  split; [exact Hown|]. split; [exact Hn|].
  split.
  - rewrite Hin by apply list_elem_of_here. vm_compute. reflexivity.
  - apply Hout. rewrite list_elem_of_singleton. discriminate.
Defined.

Lemma C6_boundary_propagation_witness :
  let w := firstTick smallOptions in
  store_inj (World.chunks w) ∧
  nearFaces 32 2 (Helper.mapVoxelPosToChunkLocalPos (0, 0, 0) 32) = [XMin; YMin; ZMin] ∧
  World.getNeighborChunksByVoxel w (0, 0, 0) = [0; 1; 2]%nat ∧
  (* the chunk at (1, 0, 0) is across no near face *)
  World.heap (World.setVoxel (0, 0, 0) 5 w) !! 6%nat = World.heap w !! 6%nat.
Proof.
  intros w.
  assert (store_inj (World.chunks w)) as Hinj by apply wf_store_inj, wf_firstTick.
  destruct (C6_boundary_propagation w (0, 0, 0) 5 Hinj)
    as (Hn & _ & _ & Hcorner & _).
  split; [exact Hinj|]. split; [vm_compute; reflexivity|].
  split; [rewrite Hn; vm_compute; reflexivity|].
  pose proof (Hcorner XMin YMin ZMin) as Hc.
  specialize (Hc ltac:(vm_compute; reflexivity) (1, 0, 0) 6%nat).
  apply Hc; [vm_compute; discriminate..|vm_compute; reflexivity].
Defined.

Lemma C7_neighbors_read_back_witness :
  let w := firstTick smallOptions in
  wf w ∧
  0 < WorldOptions.chunkSize (World.options w) ∧
  World.trace (World.setVoxel (0, 0, 0) 5 w) = World.trace w ∧
  ∃ ch, World.heap (World.setVoxel (0, 0, 0) 5 w) !! 0%nat = Some ch ∧
    Chunk.coords ch = (-1, 0, 0) ∧ Chunk.getVoxel ch (0, 0, 0) = Some 5.
Proof.
  intros w.
  assert (wf w) as Hwf by apply wf_firstTick.
  assert (0 < WorldOptions.chunkSize (World.options w)) as Hsize
    by (vm_compute; reflexivity).
  destruct (C7_neighbors_read_back w (0, 0, 0) 5 Hwf Hsize) as (Hread & Htrace).
  split; [exact Hwf|]. split; [exact Hsize|]. split; [exact Htrace|].
  assert (World.getNeighborChunksByVoxel w (0, 0, 0) = [0; 1; 2]%nat) as Hn
    by (vm_compute; reflexivity).
  rewrite Hn in Hread.
  destruct (Hread 0%nat) as (ch & Hch & Hget); [apply list_elem_of_here|].
  exists ch. split; [exact Hch|]. split; [|exact Hget].
  assert (World.heap (World.setVoxel (0, 0, 0) 5 w) !! 0%nat
          = Some (Chunk.setVoxel (Chunk.new (-1, 0, 0) 32 1 2) (0, 0, 0) 5)) as Hcomp
    by (vm_compute; reflexivity).
  rewrite Hcomp in Hch. apply (inj Some) in Hch. rewrite <-Hch. vm_compute. reflexivity.
Defined.

Lemma C8_camera_tracker_witness :
  (let w := firstTick smallOptions in
   World.camChunkName w = Some (Helper.getChunkName (0, 0, 0)) ∧
   is_Some (World.camChunkPos w) ∧
   ∃ w', World.checkCamChunk (scene := Chunk.eagerScene) (31, 0, 5) w = Some w' ∧
     World.trace w' = World.trace w ∧ World.dirtyChunks w' = World.dirtyChunks w) ∧
  (let w := firstTick smallOptions in
   World.camChunkName w ≠ Some (Helper.getChunkName (1, 0, 0)) ∧
   ∃ w', World.checkCamChunk (scene := Chunk.eagerScene) (32, 0, 5) w = Some w' ∧
     World.camChunkPos w' = Some (1, 0, 0) ∧
     World.trace w' = World.trace w ++ [EmitChunkChanged (1, 0, 0)] ∧
     length (World.heap w') = 12%nat).
Proof.
  split; intros w.
  - destruct (C8_camera_tracker (scene := Chunk.eagerScene) w (31, 0, 5)) as [Hsame _].
    assert (World.camChunkName w = Some (Helper.getChunkName (0, 0, 0))) as Hname
      by (vm_compute; reflexivity).
    assert (is_Some (World.camChunkPos w)) as Hpos
      by (exists (0, 0, 0); vm_compute; reflexivity).
    assert (Helper.mapVoxelPosToChunkPos (31, 0, 5)
              (WorldOptions.chunkSize (World.options w)) = (0, 0, 0)) as Hcp
      by (vm_compute; reflexivity).
    rewrite Hcp in Hsame.
    destruct (Hsame Hname Hpos) as (w' & Hc & Hs & _ & _ & _ & _ & Hq & _).
    split; [exact Hname|]. split; [exact Hpos|].
    exists w'. split; [exact Hc|]. split; [|exact Hq].
    assert (World.sweep (scene := Chunk.eagerScene)
              (WorldOptions.renderRadius (World.options w)) w = Some w) as Hs'
      by (vm_compute; reflexivity).
    rewrite Hs' in Hs. apply (inj Some) in Hs. rewrite <-Hs. reflexivity.
  - destruct (C8_camera_tracker (scene := Chunk.eagerScene) w (32, 0, 5)) as [_ Hchg].
    assert (World.camChunkName w ≠ Some (Helper.getChunkName (1, 0, 0))) as Hne
      by (vm_compute; discriminate).
    assert (Helper.mapVoxelPosToChunkPos (32, 0, 5)
              (WorldOptions.chunkSize (World.options w)) = (1, 0, 0)) as Hcp
      by (vm_compute; reflexivity).
    rewrite Hcp in Hchg.
    destruct (Hchg Hne) as (w1 & w' & Hc & _ & _ & _ & Hp & _).
    split; [exact Hne|]. exists w'. split; [exact Hc|]. split; [exact Hp|].
    assert (World.checkCamChunk (scene := Chunk.eagerScene) (32, 0, 5) w
            = Some (default w (World.checkCamChunk (scene := Chunk.eagerScene) (32, 0, 5) w)))
      as Hcomp by (vm_compute; reflexivity).
    rewrite Hcomp in Hc. apply (inj Some) in Hc. rewrite <-Hc.
    split; vm_compute; reflexivity.
Defined.

Lemma C9_data_needed_witness :
  (let w := camChecked (optionsWith 1 1 None) in
   World.generator w = None ∧
   World.trace (World.requestChunkData 6%nat w)
   = [EmitChunkChanged (0, 0, 0); EmitDataNeeded 6%nat] ∧
   Chunk.isPending <$> World.heap (World.requestChunkData 6%nat w) !! 6%nat = Some true) ∧
  (let w := World.new smallOptions in
   is_Some (World.generator w) ∧
   ∃ w' evs, World.tick (scene := Chunk.eagerScene) (0, 0, 0) w = Some w' ∧
     World.trace w' = World.trace w ++ evs ∧ EmitDataNeeded 6%nat ∉ evs).
Proof.
  split; intros w.
  - destruct (C9_data_needed (scene := Chunk.eagerScene) w 6%nat) as [Hnone _].
    assert (World.generator w = None) as Hg by (vm_compute; reflexivity).
    destruct (Hnone Hg) as (Ht & Hh & _).
    split; [exact Hg|]. split; [rewrite Ht; vm_compute; reflexivity|].
    rewrite Hh. vm_compute. reflexivity.
  - destruct (C9_data_needed (scene := Chunk.eagerScene) w 6%nat) as [_ Hsome].
    assert (is_Some (World.generator w)) as Hg by (eexists; reflexivity).
    destruct (Hsome Hg) as (_ & Htick & _).
    assert (World.tick (scene := Chunk.eagerScene) (0, 0, 0) w
            = Some (firstTick smallOptions)) as Hw' by (vm_compute; reflexivity).
    destruct (Htick (0, 0, 0) (firstTick smallOptions) Hw') as (evs & Ht & Hevs).
    split; [exact Hg|]. exists (firstTick smallOptions), evs.
    split; [exact Hw'|]. split; [exact Ht|apply Hevs].
Defined.

Lemma C10_request_again_witness :
  let w := camChecked smallOptions in
  is_Some (World.generator w) ∧
  World.heap w !! 6%nat = Some (Chunk.new (1, 0, 0) 32 1 2) ∧
  World.dirtyChunks w = [6; 5; 4; 3; 2; 1; 0]%nat ∧
  World.trace (World.meshDirtyChunk (scene := Chunk.eagerScene) 6%nat
                 (World.meshDirtyChunk (scene := Chunk.eagerScene) 6%nat w))
  = World.trace w ++ [CallGenerate 6%nat; CallGenerate 6%nat].
Proof.
  intros w.
  assert (is_Some (World.generator w)) as Hg
    by (exists SinCosGenerator; vm_compute; reflexivity).
  assert (World.heap w !! 6%nat = Some (Chunk.new (1, 0, 0) 32 1 2)) as Hch
    by (vm_compute; reflexivity).
  destruct (C10_request_again (scene := Chunk.eagerScene) w 6%nat
              (Chunk.new (1, 0, 0) 32 1 2) Hg Hch eq_refl eq_refl)
    as (_ & (_ & _ & _ & _ & Htwice) & _).
  split; [exact Hg|]. split; [exact Hch|]. split; [vm_compute; reflexivity|exact Htwice].
Defined.

(** * Further properties of the world *)

(** ** The first camera check and the region fill *)

Section Camera.
Context {scene : Chunk.Scene}.

(** What the sweep leaves alone besides the chunk objects. *)
Lemma sweep_frame R w w' :
  World.sweep R w = Some w' →
  World.options w' = World.options w ∧ World.camChunkName w' = World.camChunkName w ∧
  World.camChunkPos w' = World.camChunkPos w ∧ World.chunks w' = World.chunks w ∧
  length (World.heap w') = length (World.heap w) ∧
  World.dirtyChunks w' = World.dirtyChunks w.
Proof.
  intros Hs. pose proof (evolves_sweep _ _ _ Hs) as (?&_&?&?&?&?&_).
  split_and!; try done. by eapply dirtyChunks_sweep.
Qed.

(** The camera check, step by step. *)
Lemma checkCamChunk_inv pos w w' :
  let chunkPos :=
    Helper.mapVoxelPosToChunkPos pos (WorldOptions.chunkSize (World.options w)) in
  World.checkCamChunk pos w = Some w' →
  (World.camChunkName w = Some (Helper.getChunkName chunkPos) ∧
   World.sweep (WorldOptions.renderRadius (World.options w)) w = Some w') ∨
  (World.camChunkName w ≠ Some (Helper.getChunkName chunkPos) ∧
   ∃ w1, World.surroundCamChunks
           (World.set_cam (Helper.getChunkName chunkPos) chunkPos
              (World.emit (EmitChunkChanged chunkPos) w)) = Some w1 ∧
     World.sweep (WorldOptions.renderRadius (World.options w)) w1 = Some w').
Proof.
  intros chunkPos Hc.
  destruct (decide (World.camChunkName w = Some (Helper.getChunkName chunkPos))) as [Hn|Hn].
  - left. split; [done|]. by rewrite checkCamChunk_same in Hc.
  - right. split; [done|]. rewrite checkCamChunk_changed in Hc by done.
    fold chunkPos in Hc.
    destruct (World.surroundCamChunks _) as [w1|]; [|done]. eauto.
Qed.

(** A chunk that is not initialized is left alone by the sweep. *)
Lemma sweep_uninitialized R w :
  is_Some (World.camChunkPos w) →
  (∀ l ch, World.heap w !! l = Some ch → Chunk.isInitialized ch = false) →
  World.sweep R w = Some w.
Proof.
  intros [[[cx cy] cz] Hc] Hun. rewrite (sweep_region R w cx cy cz Hc). f_equal.
  induction (region (cx, cy, cz) R) as [|[[x y] z] ps IH]; [done|]. simpl.
  assert (World.sweepVisit x y z w = w) as ->; [|done].
  unfold World.sweepVisit. destruct (World.getChunkByCPos w (x, y, z)) as [l|]; [|done].
  destruct (World.heap w !! l) as [ch|] eqn:Hl; [|done].
  unfold World.sweepChunk. by rewrite (Hun l ch Hl).
Qed.

End Camera.

(** The region fill, from the state before it. *)
Lemma surround_facts w w' :
  World.surroundCamChunks w = Some w' →
  ∃ c, World.camChunkPos w = Some c ∧
    let new := filter (λ p, World.getChunkByCPos w p = None)
                 (region c (WorldOptions.renderRadius (World.options w))) in
    World.heap w'
    = World.heap w ++ ((λ p, Chunk.new p (WorldOptions.chunkSize (World.options w))
                               (WorldOptions.dimension (World.options w))
                               (WorldOptions.chunkPadding (World.options w))) <$> new) ∧
    World.dirtyChunks w'
    = reverse (seq (length (World.heap w)) (length new)) ++ World.dirtyChunks w ∧
    (∀ i p, new !! i = Some p →
       World.chunks w' !! Helper.getChunkName p = Some (length (World.heap w) + i)%nat) ∧
    (∀ n, (∀ p, p ∈ new → Helper.getChunkName p ≠ n) →
       World.chunks w' !! n = World.chunks w !! n) ∧
    World.options w' = World.options w ∧
    World.generator w' = World.generator w ∧
    World.camChunkName w' = World.camChunkName w ∧
    World.camChunkPos w' = World.camChunkPos w ∧
    World.trace w' = World.trace w.
Proof.
  intros Hs. destruct (World.camChunkPos w) as [[[cx cy] cz]|] eqn:Hc.
  - exists (cx, cy, cz). split; [done|].
    rewrite (surroundCamChunks_region w cx cy cz Hc) in Hs. injection Hs as <-.
    pose proof (fill_spec (WorldOptions.dimension (World.options w))
                  (WorldOptions.chunkSize (World.options w))
                  (WorldOptions.chunkPadding (World.options w))
                  (region (cx, cy, cz) (WorldOptions.renderRadius (World.options w)))
                  w (NoDup_region _ _)) as Hf.
    simpl in Hf. rewrite Hc in Hf. exact Hf.
  - unfold World.surroundCamChunks in Hs. by rewrite Hc in Hs.
Qed.

(** The region fill removes nothing from the store. *)
Lemma surround_store_mono w w' n l :
  World.surroundCamChunks w = Some w' →
  World.chunks w !! n = Some l → World.chunks w' !! n = Some l.
Proof.
  intros Hs Hl. apply surround_facts in Hs as (c & _ & _ & _ & _ & Hold & _).
  rewrite Hold; [done|]. intros p [Hp _]%list_elem_of_filter <-.
  unfold World.getChunkByCPos, World.getChunkByName in Hp. congruence.
Qed.

Lemma surround_is_Some w :
  is_Some (World.camChunkPos w) → is_Some (World.surroundCamChunks w).
Proof.
  intros [[[cx cy] cz] Hc]. rewrite (surroundCamChunks_region w cx cy cz Hc). eauto.
Qed.

(** Where every chunk is present, the fill creates none. *)
Lemma fill_present dim size pad ps w :
  (∀ p, p ∈ ps → is_Some (World.getChunkByCPos w p)) →
  foldl (at3 (World.createChunkAt dim size pad)) w ps = w.
Proof.
  induction ps as [|[[x y] z] ps IH]; intros Hps; [done|]. simpl.
  unfold World.createChunkAt.
  destruct (Hps (x, y, z)) as [l ->]; [left|]. apply IH. intros p Hp. apply Hps. by right.
Qed.

Section NewWorld.
Context {scene : Chunk.Scene}.

(** X1. The first camera check of a new world succeeds when the render
    radius is not negative. It creates one chunk for each coordinate of the
    sphere around the viewpoint's chunk, in loop order, and no other; it
    queues them, the last created first; it emits "chunk changed" once and
    calls nothing else. *)
Theorem first_camera_check (options : WorldOptions.t) (pos : Coords3) :
  let R := WorldOptions.renderRadius options in
  let size := WorldOptions.chunkSize options in
  let c := Helper.mapVoxelPosToChunkPos pos size in
  0 ≤ R →
  ∃ w', World.checkCamChunk pos (World.new options) = Some w' ∧
    World.heap w'
    = (λ p, Chunk.new p size (WorldOptions.dimension options)
              (WorldOptions.chunkPadding options)) <$> region c R ∧
    World.dirtyChunks w' = reverse (seq 0 (length (region c R))) ∧
    (∀ i p, region c R !! i = Some p → World.getChunkByCPos w' p = Some i) ∧
    (∀ p, is_Some (World.getChunkByCPos w' p) ↔ sqDist c p ≤ R * R) ∧
    World.trace w' = [EmitChunkChanged c] ∧
    World.camChunkPos w' = Some c.
Proof.
  intros R size c HR.
  set (w := World.new options).
  assert (World.camChunkName w ≠ Some (Helper.getChunkName c)) as Hn by done.
  rewrite checkCamChunk_changed by done.
  change (Helper.mapVoxelPosToChunkPos pos (WorldOptions.chunkSize (World.options w)))
    with c.
  set (w0 := World.set_cam _ c _).
  destruct (surround_is_Some w0) as [w1 Hsur]; [by eexists|]. rewrite Hsur. simpl.
  pose proof Hsur as (c' & Hc' & Hh & Hq & Hnew & Hold & Ho & _ & _ & Hp & Ht)%surround_facts.
  injection Hc' as <-.
  assert (∀ ps : list Coords3,
            filter (λ p, World.getChunkByCPos w0 p = None) ps = ps) as Hflt.
  { induction ps as [|p ps IH]; [done|].
    rewrite filter_cons, decide_True, IH; [done|]. apply lookup_empty. }
  rewrite !Hflt in Hh, Hq, Hnew, Hold. simpl in Hh, Hq, Hnew, Hold.
  fold R in Hh, Hq, Hnew, Hold.
  exists w1. split.
  - change (WorldOptions.renderRadius (World.options w)) with R.
    apply sweep_uninitialized; [rewrite Hp; by eexists|].
    intros l ch. rewrite Hh. intros Hl. apply list_lookup_fmap_Some in Hl as (p & -> & _).
    done.
  - rewrite app_nil_r in Hq. split_and!; try done.
    + intros p. split.
      * intros [l Hl]. apply elem_of_region; [done|].
        destruct (decide (p ∈ region c R)) as [|Hnin]; [done|].
        unfold World.getChunkByCPos, World.getChunkByName in Hl.
        rewrite Hold in Hl; [by rewrite lookup_empty in Hl|].
        intros q Hq' Heq. apply getChunkName_inj in Heq as ->. done.
      * intros Hd. apply elem_of_region in Hd; [|done].
        apply list_elem_of_lookup in Hd as [i Hi]. exists i. by apply Hnew.
Qed.

End NewWorld.

Lemma first_camera_check_witness :
  0 ≤ WorldOptions.renderRadius smallOptions ∧
  ∃ w', World.checkCamChunk (scene := Chunk.eagerScene) (0, 0, 0) (World.new smallOptions)
        = Some w' ∧
    length (World.heap w') = 7%nat ∧
    World.dirtyChunks w' = [6; 5; 4; 3; 2; 1; 0]%nat ∧
    World.trace w' = [EmitChunkChanged (0, 0, 0)].
Proof.
  assert (0 ≤ WorldOptions.renderRadius smallOptions) as HR by (vm_compute; discriminate).
  split; [exact HR|].
  destruct (first_camera_check (scene := Chunk.eagerScene) smallOptions (0, 0, 0) HR)
    as (w' & Hc & Hh & Hq & _ & _ & Ht & _).
  exists w'. split; [exact Hc|].
  split; [rewrite Hh; vm_compute; reflexivity|].
  split; [rewrite Hq; vm_compute; reflexivity|].
  rewrite Ht. vm_compute. reflexivity.
Defined.

(** X2. After the region fill the store has a chunk at every coordinate
    within the render radius of the camera chunk, and a second region fill
    returns the same world: it creates nothing and queues nothing. *)
Theorem region_fill_complete (w w' : World.t) (c : Coords3) :
  let R := WorldOptions.renderRadius (World.options w) in
  0 ≤ R →
  World.camChunkPos w = Some c →
  World.surroundCamChunks w = Some w' →
  (∀ p, sqDist c p ≤ R * R → is_Some (World.getChunkByCPos w' p)) ∧
  World.surroundCamChunks w' = Some w'.
Proof.
  intros R HR Hc Hs.
  pose proof Hs as (c' & Hc' & Hh & Hq & Hnew & Hold & Ho & _ & _ & Hp & _)%surround_facts.
  rewrite Hc in Hc'. injection Hc' as <-. fold R in Hnew, Hold.
  assert (∀ p, p ∈ region c R → is_Some (World.getChunkByCPos w' p)) as Hall.
  { intros p Hp'. unfold World.getChunkByCPos, World.getChunkByName.
    destruct (World.getChunkByCPos w p) as [l|] eqn:Hl.
    - rewrite Hold; [by eexists|]. intros q [Hq' _]%list_elem_of_filter Heq.
      apply getChunkName_inj in Heq as ->. congruence.
    - assert (p ∈ filter (λ p, World.getChunkByCPos w p = None) (region c R)) as Hin
        by (by apply list_elem_of_filter).
      apply list_elem_of_lookup in Hin as [i Hi]. rewrite (Hnew i p Hi). by eexists. }
  split.
  - intros p Hp'. apply Hall. by apply elem_of_region.
  - destruct c as [[cx cy] cz]. rewrite (surroundCamChunks_region w' cx cy cz) by (rewrite Hp; exact Hc).
    rewrite Ho. fold R. f_equal. by apply fill_present.
Qed.

Lemma region_fill_complete_witness :
  let w' := default freshAtOrigin (World.surroundCamChunks freshAtOrigin) in
  World.surroundCamChunks freshAtOrigin = Some w' ∧
  is_Some (World.getChunkByCPos w' (0, 0, 1)) ∧
  World.surroundCamChunks w' = Some w'.
Proof.
  intros w'.
  assert (0 ≤ WorldOptions.renderRadius (World.options freshAtOrigin)) as HR
    by (vm_compute; discriminate).
  assert (World.camChunkPos freshAtOrigin = Some (0, 0, 0)) as Hc
    by (vm_compute; reflexivity).
  assert (World.surroundCamChunks freshAtOrigin = Some w') as Hs
    by (vm_compute; reflexivity).
  destruct (region_fill_complete freshAtOrigin w' (0, 0, 0) HR Hc Hs) as [Hall Hfix].
  split; [exact Hs|]. split; [|exact Hfix].
  apply Hall. vm_compute. discriminate.
Defined.

(** ** A tick *)

Section Tick.
Context {scene : Chunk.Scene}.

(** X3. When the two camera fields agree (both unset, or a chunk and its
    name), a tick succeeds, whatever the viewpoint, and leaves them on the
    viewpoint's chunk and its name; the options and the generator stay. *)
Theorem tick_tracks_camera (pos : Coords3) (w : World.t) :
  let chunkPos :=
    Helper.mapVoxelPosToChunkPos pos (WorldOptions.chunkSize (World.options w)) in
  cam_ok w →
  ∃ w', World.tick pos w = Some w' ∧
    World.camChunkPos w' = Some chunkPos ∧
    World.camChunkName w' = Some (Helper.getChunkName chunkPos) ∧
    cam_ok w' ∧
    World.options w' = World.options w ∧
    World.generator w' = World.generator w.
Proof.
  intros chunkPos Hok.
  assert (∃ w1, World.checkCamChunk pos w = Some w1 ∧
            World.camChunkPos w1 = Some chunkPos ∧
            World.camChunkName w1 = Some (Helper.getChunkName chunkPos) ∧
            World.options w1 = World.options w ∧
            World.generator w1 = World.generator w) as (w1 & Hc & Hp1 & Hn1 & Ho1 & Hg1).
  { destruct (decide (World.camChunkName w = Some (Helper.getChunkName chunkPos)))
      as [Hn|Hn].
    - unfold cam_ok in Hok. rewrite Hn in Hok.
      destruct (World.camChunkPos w) as [c|] eqn:Hp; [|done].
      apply getChunkName_inj in Hok. subst c.
      destruct (sweep_is_Some (WorldOptions.renderRadius (World.options w)) w) as [w1 Hs];
        [by rewrite Hp|].
      exists w1. rewrite checkCamChunk_same by done. split; [done|].
      pose proof (evolves_sweep _ _ _ Hs) as (Ho'&Hg'&Hn'&Hp'&_).
      split_and!; [by rewrite Hp', Hp|by rewrite Hn', Hn|done|done].
    - rewrite checkCamChunk_changed by done. fold chunkPos.
      set (w0 := World.set_cam _ chunkPos _).
      destruct (surround_is_Some w0) as [w2 Hsur]; [by eexists|].
      rewrite Hsur. simpl.
      apply surround_facts in Hsur as (c & _ & _ & _ & _ & _ & Ho & Hg & Hn2 & Hp2 & _).
      destruct (sweep_is_Some (WorldOptions.renderRadius (World.options w)) w2) as [w1 Hs];
        [rewrite Hp2; by eexists|].
      exists w1. split; [done|].
      pose proof (evolves_sweep _ _ _ Hs) as (Ho'&Hg'&Hn'&Hp'&_).
      split_and!; [by rewrite Hp', Hp2|by rewrite Hn', Hn2|by rewrite Ho', Ho
                  |by rewrite Hg', Hg]. }
  exists (World.meshDirtyChunks w1). unfold World.tick. rewrite Hc. simpl.
  pose proof (evolves_meshDirtyChunks w1) as (Ho&Hg&Hn&Hp&_).
  split; [done|]. split; [congruence|]. split; [congruence|].
  split; [|split; congruence]. unfold cam_ok. by rewrite Hn, Hp, Hn1, Hp1.
Qed.

(** X4. A tick takes no chunk out of the store and discards no chunk
    object: every name of the store refers to the same object afterwards,
    also for the chunks the camera has left behind. *)
Theorem tick_store_grows (pos : Coords3) (w w' : World.t) :
  World.tick pos w = Some w' →
  (∀ n l, World.chunks w !! n = Some l → World.chunks w' !! n = Some l) ∧
  (length (World.heap w) ≤ length (World.heap w'))%nat.
Proof.
  unfold World.tick. destruct (World.checkCamChunk pos w) as [w1|] eqn:Hc; [|done].
  simpl. intros [= <-].
  pose proof (evolves_meshDirtyChunks w1) as (_&_&_&_&Hcm&Hlm&_).
  rewrite Hcm, Hlm.
  apply checkCamChunk_inv in Hc as [[_ Hs]|[_ (w2 & Hsur & Hs)]].
  - apply sweep_frame in Hs as (_&_&_&->&->&_). split; [done|lia].
  - apply sweep_frame in Hs as (_&_&_&->&->&_). split.
    + intros n l Hl. by eapply surround_store_mono.
    + apply surround_facts in Hsur as (c & _ & Hh & _). rewrite Hh, length_app. simpl. lia.
Qed.

End Tick.

Lemma tick_tracks_camera_witness :
  let w := World.new smallOptions in
  cam_ok w ∧
  ∃ w', World.tick (scene := Chunk.eagerScene) (40, -3, 0) w = Some w' ∧
    World.camChunkPos w' = Some (1, -1, 0) ∧
    World.camChunkName w' = Some "1 -1 0".
Proof.
  intros w.
  assert (cam_ok w) as Hok by exact I.
  destruct (tick_tracks_camera (scene := Chunk.eagerScene) (40, -3, 0) w Hok)
    as (w' & Ht & Hp & Hn & _).
  split; [exact Hok|]. exists w'. split; [exact Ht|].
  split; [rewrite Hp; vm_compute; reflexivity|].
  rewrite Hn. vm_compute. reflexivity.
Defined.

Lemma tick_store_grows_witness :
  World.tick (scene := Chunk.eagerScene) (32, 0, 0) (firstTick smallOptions)
  = Some movedTick ∧
  World.chunks (firstTick smallOptions) !! "-1 0 0" = Some 0%nat ∧
  World.chunks movedTick !! "-1 0 0" = Some 0%nat ∧
  World.camChunkPos movedTick = Some (1, 0, 0) ∧
  (7 ≤ length (World.heap movedTick))%nat.
Proof.
  assert (World.tick (scene := Chunk.eagerScene) (32, 0, 0) (firstTick smallOptions)
          = Some movedTick) as Ht by (vm_compute; reflexivity).
  assert (World.chunks (firstTick smallOptions) !! "-1 0 0" = Some 0%nat) as H0
    by (vm_compute; reflexivity).
  assert (length (World.heap (firstTick smallOptions)) = 7%nat) as H7
    by (vm_compute; reflexivity).
  destruct (tick_store_grows (scene := Chunk.eagerScene) _ _ _ Ht) as [Hs Hl].
  split; [exact Ht|]. split; [exact H0|].
  split; [apply Hs; exact H0|].
  split; [vm_compute; reflexivity|].
  rewrite H7 in Hl. exact Hl.
Defined.

(** ** The queue *)
Lemma dirtyChunks_setVoxel v ty w :
  World.dirtyChunks (World.setVoxel v ty w) = World.dirtyChunks w.
Proof.
  unfold World.setVoxel. rewrite !(foldl_preserves World.dirtyChunks).
  - by destruct (World.getChunkByVoxel w v).
  - done.
  - intros w1 c. unfold World.checkNeighbor.
    destruct (World.heap w1 !! c); [|done]. by case_decide.
Qed.

Lemma queue_ok_new options : queue_ok (World.new options).
Proof. split; [constructor|]. intros l Hl. by apply elem_of_nil in Hl. Qed.

(** A step that keeps the store and the number of chunk objects, and adds
    no entry to the queue, keeps the queue invariant. *)
Lemma queue_ok_frame w w' :
  World.chunks w' = World.chunks w →
  length (World.heap w') = length (World.heap w) →
  World.dirtyChunks w' ⊆+ World.dirtyChunks w →
  queue_ok w → queue_ok w'.
Proof.
  intros Hc Hl Hsub [Hnd Hq]. split.
  - apply submseteq_Permutation in Hsub as [k Hk].
    rewrite Hk in Hnd. by apply NoDup_app in Hnd as [? _].
  - intros l Hin. eapply elem_of_submseteq in Hin; [|exact Hsub].
    destruct (Hq l Hin) as [Hh Hn]. split.
    + apply lookup_lt_is_Some. rewrite Hl. by apply lookup_lt_is_Some.
    + by rewrite Hc.
Qed.

Lemma queue_ok_surroundCamChunks w w' :
  queue_ok w → World.surroundCamChunks w = Some w' → queue_ok w'.
Proof.
  intros [Hnd Hq] Hs.
  pose proof Hs as (c & Hc & Hh & Hd & Hnew & _)%surround_facts.
  simpl in Hh, Hd, Hnew.
  set (new := filter _ _) in Hh, Hd, Hnew.
  split.
  - rewrite Hd. apply NoDup_app. split_and!.
    + rewrite reverse_Permutation. apply NoDup_seq.
    + intros l Hl%elem_of_reverse%elem_of_seq Hl'.
      destruct (Hq l Hl') as [Hlt%lookup_lt_is_Some _]. lia.
    + done.
  - intros l. rewrite Hd, elem_of_app, elem_of_reverse, elem_of_seq.
    intros [Hl|Hl].
    + split.
      * apply lookup_lt_is_Some. rewrite Hh, length_app, length_fmap. lia.
      * destruct (lookup_lt_is_Some_2 new (l - length (World.heap w))%nat) as [p Hp];
          [lia|].
        exists (Helper.getChunkName p). rewrite (Hnew _ _ Hp). f_equal. lia.
    + destruct (Hq l Hl) as [Hlt [n Hn]]. split.
      * apply lookup_lt_is_Some. rewrite Hh, length_app.
        apply lookup_lt_is_Some in Hlt. lia.
      * exists n. by eapply surround_store_mono.
Qed.

Lemma all_pendingb_spec w ls : all_pendingb w ls = true → all_pending w ls.
Proof.
  unfold all_pendingb, all_pending. intros Hb l Hl.
  apply Is_true_true_2, forallb_True in Hb.
  rewrite Forall_forall in Hb. specialize (Hb l Hl). simpl in Hb.
  destruct (World.heap w !! l) as [ch|]; [|done].
  exists ch. split; [done|]. by apply Is_true_true.
Qed.

Lemma requested_app evs1 evs2 : requested (evs1 ++ evs2) = requested evs1 ++ requested evs2.
Proof. unfold requested. by rewrite omap_app. Qed.

Lemma rotate_S_cons {A} (n : nat) (x : A) (l : list A) :
  rotate (S n) (x :: l) = rotate n (l ++ [x]).
Proof.
  apply list_eq. intros i.
  destruct (decide (i < length (x :: l))%nat) as [Hi|Hi].
  - rewrite !lookup_rotate_r by (rewrite ?length_app; simpl in *; lia).
    unfold rotate_nat_add. rewrite length_app. simpl length.
    rewrite Nat.add_1_r.
    set (L := S (length l)).
    assert (Z.to_nat ((Z.of_nat (S n) + Z.of_nat i) `mod` Z.of_nat L)
            = (S (n + i) mod L)%nat) as ->.
    { rewrite <-Nat2Z.inj_add. rewrite <-Nat2Z.inj_mod. by rewrite Nat2Z.id. }
    assert (Z.to_nat ((Z.of_nat n + Z.of_nat i) `mod` Z.of_nat L)
            = ((n + i) mod L)%nat) as ->.
    { rewrite <-Nat2Z.inj_add. rewrite <-Nat2Z.inj_mod. by rewrite Nat2Z.id. }
    pose proof (Nat.mod_upper_bound (n + i) L ltac:(done)) as Hm.
    pose proof (Nat.div_mod_eq (n + i) L) as Hdm.
    set (m := ((n + i) mod L)%nat) in *.
    set (d := ((n + i) / L)%nat) in *.
    destruct (decide (S m = L)) as [Heq|Hne].
    + assert ((S (n + i) mod L)%nat = 0%nat) as ->.
      { symmetry. apply (Nat.mod_unique _ _ (S d)); [lia|]. nia. }
      simpl. rewrite lookup_app_r by (subst L; lia).
      replace (m - length l)%nat with 0%nat by (subst L; lia). done.
    + assert ((S (n + i) mod L)%nat = S m) as ->.
      { symmetry. apply (Nat.mod_unique _ _ d); [lia|]. nia. }
      simpl. rewrite lookup_app_l by (subst L; lia). done.
  - rewrite !lookup_ge_None_2; [done|..]; rewrite length_rotate, ?length_app; simpl in *; lia.
Qed.

Section Queue.
Context {scene : Chunk.Scene}.

(** The loop only takes entries off the queue or moves them. *)
Lemma whileLoop_submseteq fuel count w :
  World.dirtyChunks (World.whileLoop fuel count w) ⊆+ World.dirtyChunks w.
Proof.
  revert count w. induction fuel as [|fuel IH]; intros count w; simpl; [done|].
  destruct (_ && _); [|done].
  destruct (World.dirtyChunks w) as [|c rest] eqn:Hq; [by rewrite Hq|].
  etrans; [apply IH|].
  destruct (dirtyChunks_meshDirtyChunk c (World.set_dirtyChunks rest w)) as [->| ->]; simpl.
  - by apply submseteq_cons.
  - apply Permutation_submseteq. by rewrite Permutation_app_comm.
Qed.

Lemma meshDirtyChunks_submseteq w :
  World.dirtyChunks (World.meshDirtyChunks w) ⊆+ World.dirtyChunks w.
Proof.
  unfold World.meshDirtyChunks. case_bool_decide; [|done]. apply whileLoop_submseteq.
Qed.

(** X5. The queue invariant: the queue holds each chunk at most once, and
    only chunk objects that the store names. A new world has it; a tick, a
    voxel edit and the completion of a generation keep it. *)
Theorem queue_holds_store_chunks_once :
  (∀ options, queue_ok (World.new options)) ∧
  (∀ pos w w', queue_ok w → World.tick pos w = Some w' → queue_ok w') ∧
  (∀ v type w, queue_ok w → queue_ok (World.setVoxel v type w)) ∧
  (∀ chunk w, queue_ok w → queue_ok (World.generationResolved chunk w)).
Proof.
  split_and!.
  - apply queue_ok_new.
  - intros pos w w' Hq. unfold World.tick.
    destruct (World.checkCamChunk pos w) as [w1|] eqn:Hc; [|done].
    simpl. intros [= <-].
    pose proof (evolves_meshDirtyChunks w1) as (_&_&_&_&Hcm&Hlm&_).
    apply (queue_ok_frame w1); [done|done|apply meshDirtyChunks_submseteq|].
    apply checkCamChunk_inv in Hc as [[_ Hs]|[_ (w2 & Hsur & Hs)]].
    + apply sweep_frame in Hs as (_&_&_&Hc1&Hl1&Hd1).
      apply (queue_ok_frame w); [done|done|by rewrite Hd1|done].
    + apply sweep_frame in Hs as (_&_&_&Hc1&Hl1&Hd1).
      apply (queue_ok_frame w2); [done|done|by rewrite Hd1|].
      eapply queue_ok_surroundCamChunks; [|exact Hsur]. exact Hq.
  - intros v type w Hq.
    pose proof (evolves_setVoxel v type w) as (_&_&_&_&Hc&Hl&_).
    apply (queue_ok_frame w); [done|done| |done].
    by rewrite dirtyChunks_setVoxel.
  - intros chunk w Hq. apply (queue_ok_frame w); [done| |done|done].
    unfold World.generationResolved, World.onChunk. simpl. by rewrite length_alter.
Qed.

(** X6. One call of the queue drain adds no entry to the queue: the queue
    after it is, up to order, a part of the queue before it, so it is no
    longer, and it holds no chunk twice when the queue before held none
    twice. *)
Theorem drain_adds_no_entry (w : World.t) :
  let w' := World.meshDirtyChunks w in
  World.dirtyChunks w' ⊆+ World.dirtyChunks w ∧
  (length (World.dirtyChunks w') ≤ length (World.dirtyChunks w))%nat ∧
  (∀ l, l ∈ World.dirtyChunks w' → l ∈ World.dirtyChunks w) ∧
  (NoDup (World.dirtyChunks w) → NoDup (World.dirtyChunks w')).
Proof.
  intros w'.
  assert (World.dirtyChunks w' ⊆+ World.dirtyChunks w) as Hsub
    by apply meshDirtyChunks_submseteq.
  split_and!; [done|by apply submseteq_length| |].
  - intros l Hl. by eapply elem_of_submseteq.
  - intros Hnd. apply submseteq_Permutation in Hsub as [k Hk].
    rewrite Hk in Hnd. by apply NoDup_app in Hnd as [? _].
Qed.

Lemma meshDirtyChunk_pending c ch w :
  World.heap w !! c = Some ch → Chunk.isPending ch = true →
  World.meshDirtyChunk c w = World.set_dirtyChunks (World.dirtyChunks w ++ [c]) w.
Proof. intros Hc Hp. unfold World.meshDirtyChunk. by rewrite Hc, Hp. Qed.

(** A queue of pending chunks is turned by one entry on every turn of the
    loop. *)
Lemma whileLoop_pending fuel count w :
  all_pending w (World.dirtyChunks w) →
  Z.to_nat (WorldOptions.maxChunkPerFrame (World.options w) + 1 - count) = fuel →
  World.whileLoop fuel count w
  = World.set_dirtyChunks (rotate fuel (World.dirtyChunks w)) w.
Proof.
  revert count w. induction fuel as [|fuel IH]; intros count w Hall Hfuel.
  { simpl. destruct w as [? ? ? ? ? q ? ?]. simpl. unfold World.set_dirtyChunks. simpl.
    f_equal. unfold rotate. simpl. by rewrite Nat.Div0.mod_0_l, drop_0, take_0, app_nil_r. }
  rewrite whileLoop_S. rewrite bool_decide_eq_true_2 by lia.
  destruct (World.dirtyChunks w) as [|c rest] eqn:Hq.
  { rewrite andb_false_r. destruct w. simpl in *. by subst. }
  rewrite bool_decide_eq_true_2 by (simpl; lia). simpl.
  destruct (Hall c) as (ch & Hch & Hp); [left|].
  rewrite (meshDirtyChunk_pending c ch) by done. simpl.
  rewrite (IH (count + 1)).
  - simpl. rewrite rotate_S_cons. done.
  - simpl. intros l Hl. apply Hall. apply elem_of_app in Hl as [Hl|Hl%list_elem_of_singleton].
    + by right.
    + subst. left.
  - simpl. lia.
Qed.

(** X7. When every entry of the queue is a pending chunk, one call of the
    queue drain only turns the queue: it moves [maxChunkPerFrame + 1] entries
    from the front to the rear, one by one, and changes nothing else: no
    chunk object, no call, no signal. *)
Theorem drain_turns_pending_queue (w : World.t) :
  all_pending w (World.dirtyChunks w) →
  World.meshDirtyChunks w
  = World.set_dirtyChunks
      (rotate (Z.to_nat (WorldOptions.maxChunkPerFrame (World.options w) + 1))
         (World.dirtyChunks w)) w.
Proof.
  intros Hall. unfold World.meshDirtyChunks. case_bool_decide as Hne.
  - apply whileLoop_pending; [done|]. f_equal. lia.
  - destruct w as [? ? ? ? ? q ? ?]. simpl in *. destruct q; [|simpl in Hne; lia].
    unfold World.set_dirtyChunks. simpl. f_equal.
    unfold rotate. by rewrite drop_nil, take_nil.
Qed.

(** One turn of the drain, without a generator: the chunks asked for so far
    stay pending, and none is asked for again. *)
Lemma meshDirtyChunk_requests_once c w t0 evs0 :
  World.generator w = None →
  World.trace w = t0 ++ evs0 →
  NoDup (requested evs0) →
  all_pending w (requested evs0) →
  let w' := World.meshDirtyChunk c w in
  World.generator w' = None ∧
  ∃ evs, World.trace w' = t0 ++ evs ∧ NoDup (requested evs) ∧
    all_pending w' (requested evs).
Proof.
  intros Hg Ht Hnd Hall. simpl.
  split; [by pose proof (evolves_meshDirtyChunk c w) as (_&->&_)|].
  unfold World.meshDirtyChunk.
  destruct (World.heap w !! c) as [ch|] eqn:Hch; [|by exists evs0].
  destruct (Chunk.isPending ch) eqn:Hp; [by exists evs0|].
  assert (c ∉ requested evs0) as Hnin.
  { intros Hin. destruct (Hall c Hin) as (ch' & Hch' & Hp'). congruence. }
  destruct (Chunk.isInitialized ch) eqn:Hi; simpl.
  - destruct (Chunk.isMeshing ch); [by exists evs0|].
    exists (evs0 ++ [CallBuildMesh c]). unfold World.callBuildMesh, World.onChunk.
    simpl. rewrite Ht, <-app_assoc.
    split; [done|]. rewrite requested_app. simpl. rewrite app_nil_r.
    split; [done|]. intros l Hl. destruct (Hall l Hl) as (ch' & Hch' & Hp').
    exists ch'. split; [|done]. simpl.
    rewrite list_lookup_alter_ne; [done|]. by intros ->.
  - exists (evs0 ++ [EmitDataNeeded c]). simpl.
    rewrite trace_requestChunkData, Hg, Ht, <-app_assoc.
    split; [done|]. rewrite requested_app. simpl.
    split.
    + apply NoDup_app. split_and!; [done| |apply NoDup_singleton].
      intros l Hl ->%list_elem_of_singleton. done.
    + intros l Hl. simpl. rewrite heap_requestChunkData, Hg.
      apply elem_of_app in Hl as [Hl| ->%list_elem_of_singleton].
      * destruct (Hall l Hl) as (ch' & Hch' & Hp').
        exists ch'. split; [|done]. rewrite list_lookup_alter_ne; [done|]. by intros ->.
      * rewrite list_lookup_alter_eq, Hch. simpl. eauto.
Qed.

Lemma whileLoop_requests_once fuel count w t0 evs0 :
  World.generator w = None →
  World.trace w = t0 ++ evs0 →
  NoDup (requested evs0) →
  all_pending w (requested evs0) →
  let w' := World.whileLoop fuel count w in
  ∃ evs, World.trace w' = t0 ++ evs ∧ NoDup (requested evs) ∧
    all_pending w' (requested evs).
Proof.
  revert count w evs0. induction fuel as [|fuel IH]; intros count w evs0 Hg Ht Hnd Hall.
  { by exists evs0. }
  simpl. destruct (_ && _); [|by exists evs0].
  destruct (World.dirtyChunks w) as [|c rest] eqn:Hq; [by exists evs0|].
  destruct (meshDirtyChunk_requests_once c (World.set_dirtyChunks rest w) t0 evs0)
    as (Hg1 & evs1 & Ht1 & Hnd1 & Hall1); [done..|].
  by apply (IH _ _ evs1).
Qed.

(** X8. Without a generator, one call of the queue drain asks for the data
    of a chunk at most once, also when the loop meets the chunk again, and
    every chunk it asked for is pending afterwards. *)
Theorem drain_requests_once (w : World.t) :
  World.generator w = None →
  ∃ evs, World.trace (World.meshDirtyChunks w) = World.trace w ++ evs ∧
    NoDup (requested evs) ∧
    all_pending (World.meshDirtyChunks w) (requested evs).
Proof.
  intros Hg. unfold World.meshDirtyChunks. case_bool_decide.
  - apply (whileLoop_requests_once _ _ w (World.trace w) []); try done.
    + by rewrite app_nil_r.
    + constructor.
    + intros l Hl. by apply elem_of_nil in Hl.
  - exists []. split; [by rewrite app_nil_r|]. split; [constructor|].
    intros l Hl. by apply elem_of_nil in Hl.
Qed.

End Queue.

Lemma drain_turns_pending_queue_witness :
  all_pending threePending (World.dirtyChunks threePending) ∧
  World.dirtyChunks threePending = [1; 0; 2]%nat ∧
  World.dirtyChunks (World.meshDirtyChunks (scene := Chunk.eagerScene) threePending)
  = [2; 1; 0]%nat ∧
  World.trace (World.meshDirtyChunks (scene := Chunk.eagerScene) threePending)
  = World.trace threePending.
Proof.
  assert (all_pending threePending (World.dirtyChunks threePending)) as Hall
    by (apply all_pendingb_spec; vm_compute; reflexivity).
  pose proof (drain_turns_pending_queue (scene := Chunk.eagerScene) threePending Hall)
    as Hd.
  split; [exact Hall|].
  split; [vm_compute; reflexivity|].
  rewrite Hd. split; vm_compute; reflexivity.
Defined.

Lemma drain_requests_once_witness :
  World.generator fiveQueued = None ∧
  ∃ evs,
    World.trace (World.meshDirtyChunks (scene := Chunk.eagerScene) fiveQueued)
    = World.trace fiveQueued ++ evs ∧
    NoDup (requested evs).
Proof.
  assert (World.generator fiveQueued = None) as Hg by (vm_compute; reflexivity).
  destruct (drain_requests_once (scene := Chunk.eagerScene) fiveQueued Hg)
    as (evs & Ht & Hnd & _).
  split; [exact Hg|]. exists evs. split; [exact Ht|exact Hnd].
Defined.

(** ** The store *)

Section Store.
Context {scene : Chunk.Scene}.

(** X9. The store invariant: every name of the store refers to a chunk
    object that has the coordinates of that name and the size and padding of
    the options. A new world has it; a voxel edit and the completion of a
    generation keep it, and so does a tick when the scene methods keep the
    coordinates, name, size and padding of the chunk they are called on. *)
Theorem store_names_match_chunks :
  (∀ options, wf (World.new options)) ∧
  (keeps_shape Chunk.addToScene → keeps_shape Chunk.buildMesh →
   ∀ pos w w', wf w → World.tick pos w = Some w' → wf w') ∧
  (∀ v type w, wf w → wf (World.setVoxel v type w)) ∧
  (∀ chunk w, wf w → wf (World.generationResolved chunk w)) ∧
  (∀ w, wf w → store_inj (World.chunks w)).
Proof.
  split_and!.
  - apply wf_new.
  - intros Ha Hb pos w w'. by apply wf_tick.
  - intros v type w. apply wf_setVoxel.
  - intros chunk w. apply wf_generationResolved.
  - apply wf_store_inj.
Qed.

End Store.

(** ** Voxel edits *)
Lemma length_omap_le {A B} (f : A → option B) (l : list A) :
  (length (omap f l) ≤ length l)%nat.
Proof.
  induction l as [|x l IH]; [done|]. cbn [omap list_omap]. fold (omap f l).
  destruct (f x); simpl; lia.
Qed.

(** X10. A voxel has at most six neighbour chunks, and at most three when
    twice the padding is at most the chunk size: the two faces of an axis
    are then never both near. *)
Theorem neighbor_count (w : World.t) (v : Coords3) :
  (length (World.getNeighborChunksByVoxel w v) ≤ 6)%nat ∧
  (2 * WorldOptions.chunkPadding (World.options w)
   ≤ WorldOptions.chunkSize (World.options w) →
   (length (World.getNeighborChunksByVoxel w v) ≤ 3)%nat).
Proof.
  rewrite getNeighborChunksByVoxel_faces.
  set (size := WorldOptions.chunkSize _). set (pad := WorldOptions.chunkPadding _).
  destruct (Helper.mapVoxelPosToChunkLocalPos v size) as [[lx ly] lz].
  split; [|intros Hpad]; (etrans; [apply length_omap_le|]);
    unfold nearFaces; repeat case_bool_decide; simpl; lia.
Qed.

(** X11. An edit at a local position that is at least [chunkPadding] away
    from every face has no neighbour chunk: it writes the owning chunk, when
    there is one, and does nothing else; it prints nothing. *)
Theorem interior_edit (w : World.t) (v : Coords3) (type : Z) (lx ly lz : Z) :
  let size := WorldOptions.chunkSize (World.options w) in
  let pad := WorldOptions.chunkPadding (World.options w) in
  Helper.mapVoxelPosToChunkLocalPos v size = (lx, ly, lz) →
  pad ≤ lx < size - pad → pad ≤ ly < size - pad → pad ≤ lz < size - pad →
  World.getNeighborChunksByVoxel w v = [] ∧
  World.setVoxel v type w
  = match World.getChunkByVoxel w v with
    | Some chunk => World.onChunk (λ ch, Chunk.setVoxel ch v type) chunk w
    | None => w
    end ∧
  World.trace (World.setVoxel v type w) = World.trace w ∧
  ∀ l, World.getChunkByVoxel w v ≠ Some l →
    World.heap (World.setVoxel v type w) !! l = World.heap w !! l.
Proof.
  intros size pad Hl Hx Hy Hz.
  assert (World.getNeighborChunksByVoxel w v = []) as Hn.
  { rewrite getNeighborChunksByVoxel_faces. fold size pad. rewrite Hl.
    unfold nearFaces. rewrite !bool_decide_eq_false_2 by lia. done. }
  assert (World.setVoxel v type w
          = match World.getChunkByVoxel w v with
            | Some chunk => World.onChunk (λ ch, Chunk.setVoxel ch v type) chunk w
            | None => w
            end) as Hs.
  { unfold World.setVoxel.
    assert (∀ w1, World.options w1 = World.options w → World.chunks w1 = World.chunks w →
              World.getNeighborChunksByVoxel w1 v = World.getNeighborChunksByVoxel w v) as Hn1.
    { intros w1 Ho Hc. rewrite !getNeighborChunksByVoxel_faces, Ho.
      unfold World.getChunkByCPos, World.getChunkByName. by rewrite Hc. }
    destruct (World.getChunkByVoxel w v) as [c|]; [|by rewrite Hn].
    rewrite Hn1, Hn; done. }
  split; [done|]. split; [done|]. rewrite Hs. split.
  - by destruct (World.getChunkByVoxel w v).
  - intros l Hne. destruct (World.getChunkByVoxel w v) as [c|]; [|done].
    simpl. rewrite list_lookup_alter_ne; [done|]. by intros ->.
Qed.

Lemma interior_edit_witness :
  let w := firstTick smallOptions in
  Helper.mapVoxelPosToChunkLocalPos (37, 5, -5) 32 = (5, 5, 27) ∧
  World.getNeighborChunksByVoxel w (37, 5, -5) = [] ∧
  World.trace (World.setVoxel (37, 5, -5) 7 w) = World.trace w.
Proof.
  intros w.
  assert (Helper.mapVoxelPosToChunkLocalPos (37, 5, -5)
            (WorldOptions.chunkSize (World.options w)) = (5, 5, 27)) as Hl
    by (vm_compute; reflexivity).
  destruct (interior_edit w (37, 5, -5) 7 5 5 27 Hl) as (Hn & _ & Ht & _).
  - split; vm_compute; [discriminate|reflexivity].
  - split; vm_compute; [discriminate|reflexivity].
  - split; vm_compute; [discriminate|reflexivity].
  - split; [vm_compute; reflexivity|]. split; [exact Hn|exact Ht].
Defined.

Lemma Chunk_toLocal_inj ch v v' : Chunk.toLocal ch v = Chunk.toLocal ch v' → v = v'.
Proof.
  unfold Chunk.toLocal. destruct (Chunk.coords ch) as [[cx cy] cz].
  destruct v as [[x y] z], v' as [[x' y'] z']. intros [= ? ? ?]. f_equal; [f_equal|]; lia.
Qed.

(** A write at one voxel is not seen at another. *)
Lemma Chunk_getVoxel_setVoxel_ne ch v v' ty :
  v ≠ v' → Chunk.getVoxel (Chunk.setVoxel ch v ty) v' = Chunk.getVoxel ch v'.
Proof.
  intros Hne. unfold Chunk.setVoxel. destruct (Chunk.contains ch v); [|done].
  unfold Chunk.getVoxel, Chunk.contains, Chunk.toLocal. simpl.
  fold (Chunk.toLocal ch v) (Chunk.toLocal ch v').
  destruct (Chunk.toLocal ch v') as [[lx ly] lz] eqn:Hl.
  destruct (_ && _); [|done]. rewrite lookup_insert_ne; [done|].
  rewrite <-Hl. intros Heq. by apply Chunk_toLocal_inj in Heq.
Qed.

Lemma getChunkByVoxel_setVoxel v ty w v' :
  World.getChunkByVoxel (World.setVoxel v ty w) v' = World.getChunkByVoxel w v'.
Proof.
  pose proof (evolves_setVoxel v ty w) as (Ho&_&_&_&Hc&_).
  unfold World.getChunkByVoxel, World.getChunkByCPos, World.getChunkByName.
  by rewrite Ho, Hc.
Qed.

(** The owning chunk covers its voxels. *)
Lemma owner_contains size pad v ch :
  0 < size → 0 ≤ pad →
  Chunk.coords ch = Helper.mapVoxelPosToChunkPos v size →
  Chunk.size ch = size → Chunk.padding ch = pad →
  Chunk.contains ch v = true.
Proof.
  intros Hs Hp Hc Hsz Hpd. unfold Chunk.contains, Chunk.toLocal. rewrite Hc, Hsz, Hpd.
  destruct v as [[x y] z]. simpl.
  pose proof (Z.mod_pos_bound x size Hs). pose proof (Z.mod_pos_bound y size Hs).
  pose proof (Z.mod_pos_bound z size Hs).
  pose proof (Z.div_mod x size ltac:(lia)). pose proof (Z.div_mod y size ltac:(lia)).
  pose proof (Z.div_mod z size ltac:(lia)).
  rewrite !bool_decide_eq_true_2; [done|nia..].
Qed.

(** X12. In a world that has the store invariant, a positive chunk size
    and a padding that is not negative, a block placed at a voxel that a
    chunk owns reads back as that block, and a broken one as air (0); the
    read is never [null] nor undefined. *)
Theorem edit_then_read (w : World.t) (v : Coords3) (type : Z) :
  wf w →
  0 < WorldOptions.chunkSize (World.options w) →
  0 ≤ WorldOptions.chunkPadding (World.options w) →
  is_Some (World.getChunkByVoxel w v) →
  World.getVoxelByVoxel (World.placeVoxel (Some v) type w) v = Some (Some type) ∧
  World.getVoxelByVoxel (World.breakVoxel (Some v) w) v = Some (Some 0).
Proof.
  intros Hwf Hsize Hpad [l Hl].
  assert (∀ ty, World.getVoxelByVoxel (World.setVoxel v ty w) v = Some (Some ty)) as H.
  { intros ty. unfold World.getVoxelByVoxel. rewrite getChunkByVoxel_setVoxel, Hl.
    rewrite setVoxel_heap, Hl. rewrite decide_True by (simpl; left).
    destruct (wf_getChunkByCPos w _ l Hwf Hl) as (ch & Hch & Hc & Hsz & Hpd).
    rewrite Hch. simpl. f_equal. apply Chunk_getVoxel_setVoxel.
    by eapply owner_contains. }
  split; apply H.
Qed.

Lemma edit_then_read_witness :
  let w := firstTick smallOptions in
  wf w ∧
  World.getChunkByVoxel w (37, 5, -5) = None ∧
  World.getChunkByVoxel w (5, 5, 5) = Some 3%nat ∧
  World.getVoxelByVoxel w (5, 5, 5) = Some (Some 0) ∧
  World.getVoxelByVoxel (World.placeVoxel (Some (5, 5, 5)) 7 w) (5, 5, 5)
  = Some (Some 7).
Proof.
  intros w.
  assert (wf w) as Hwf by apply wf_firstTick.
  assert (0 < WorldOptions.chunkSize (World.options w)) as Hsize
    by (vm_compute; reflexivity).
  assert (0 ≤ WorldOptions.chunkPadding (World.options w)) as Hpad
    by (vm_compute; discriminate).
  assert (World.getChunkByVoxel w (5, 5, 5) = Some 3%nat) as Hown
    by (vm_compute; reflexivity).
  assert (is_Some (World.getChunkByVoxel w (5, 5, 5))) as Hsome
    by (rewrite Hown; eexists; reflexivity).
  destruct (edit_then_read w (5, 5, 5) 7 Hwf Hsize Hpad Hsome) as [Hplace _].
  split; [exact Hwf|]. split; [vm_compute; reflexivity|].
  split; [exact Hown|]. split; [vm_compute; reflexivity|exact Hplace].
Defined.

(** X13. Placing or breaking a block at one voxel changes what is read at
    no other voxel, whatever chunks hold copies of either. *)
Theorem edit_keeps_other_voxels (w : World.t) (v v' : Coords3) (type : Z) :
  v' ≠ v →
  World.getVoxelByVoxel (World.placeVoxel (Some v) type w) v'
  = World.getVoxelByVoxel w v' ∧
  World.getVoxelByVoxel (World.breakVoxel (Some v) w) v'
  = World.getVoxelByVoxel w v' ∧
  World.placeVoxel None type w = w ∧ World.breakVoxel None w = w.
Proof.
  intros Hne.
  assert (∀ ty, World.getVoxelByVoxel (World.setVoxel v ty w) v'
                = World.getVoxelByVoxel w v') as H.
  { intros ty. unfold World.getVoxelByVoxel. rewrite getChunkByVoxel_setVoxel.
    destruct (World.getChunkByVoxel w v') as [l|]; [|done].
    rewrite setVoxel_heap. case_decide; [|done].
    destruct (World.heap w !! l) as [ch|]; [|done]. simpl.
    f_equal. apply Chunk_getVoxel_setVoxel_ne. by intros ->. }
  split_and!; [apply H|apply H|done|done].
Qed.

Lemma edit_keeps_other_voxels_witness :
  let w := firstTick smallOptions in
  (0, 0, 1) ≠ (0, 0, 0) ∧
  World.getNeighborChunksByVoxel w (0, 0, 0) = [0; 1; 2]%nat ∧
  World.getVoxelByVoxel (World.placeVoxel (Some (0, 0, 0)) 7 w) (0, 0, 1)
  = World.getVoxelByVoxel w (0, 0, 1).
Proof.
  intros w.
  assert ((0, 0, 1) ≠ ((0, 0, 0) : Coords3)) as Hne by (intros Heq; discriminate Heq).
  destruct (edit_keeps_other_voxels w (0, 0, 0) (0, 0, 1) 7 Hne) as (Hplace & _).
  split; [exact Hne|]. split; [vm_compute; reflexivity|exact Hplace].
Defined.

(** ** Display strings *)
Lemma no_space_sep a b : no_space a → ¬ no_space (a +:+ " " +:+ b).
Proof.
  induction a as [|c a IH]; simpl.
  - intros _ [H _]. done.
  - intros [_ Ha] [_ H]. by apply IH.
Qed.

(** X14. The display string of the camera chunk exists exactly when the
    camera chunk is set (reading it before the first camera check throws),
    and it tells the camera chunk: worlds with the same string have the same
    camera chunk. *)
Theorem camChunkPosStr_inj (w1 w2 : World.t) :
  (is_Some (World.camChunkPosStr w1) ↔ is_Some (World.camChunkPos w1)) ∧
  (is_Some (World.camChunkPosStr w1) →
   World.camChunkPosStr w1 = World.camChunkPosStr w2 →
   World.camChunkPos w1 = World.camChunkPos w2).
Proof.
  unfold World.camChunkPosStr.
  destruct (World.camChunkPos w1) as [[[x1 y1] z1]|]; simpl.
  - split; [split; eauto|]. intros _.
    destruct (World.camChunkPos w2) as [[[x2 y2] z2]|]; simpl; [|done].
    intros [= Heq]. f_equal. by apply getChunkName_inj.
  - split; [|by intros [? ?]]. split; by intros [? ?].
Qed.

(** * Properties of the player *)

(** X15. The display string of the look block tells the look block: two
    look blocks have the same string only when they are the same, and the
    string of no block, "None", is the string of no voxel. *)
Theorem lookBlockStr_inj (b1 b2 : option Coords3) :
  Player.lookBlockStr b1 = Player.lookBlockStr b2 ↔ b1 = b2.
Proof.
  split; [|by intros ->].
  assert (∀ x y z : Z,
            pretty x +:+ " " +:+ pretty y +:+ " " +:+ pretty z ≠ "None") as Hnone.
  { intros x y z Heq.
    apply (no_space_sep (pretty x) (pretty y +:+ " " +:+ pretty z));
      [apply pretty_Z_no_space|].
    rewrite Heq. by compute. }
  destruct b1 as [[[x1 y1] z1]|], b2 as [[[x2 y2] z2]|]; simpl; intros Heq.
  - f_equal. by apply getChunkName_inj.
  - by apply Hnone in Heq.
  - symmetry in Heq. by apply Hnone in Heq.
  - done.
Qed.

(** ** Keys *)
Lemma keys_active_guards i :
  keys_active i →
  negb (Player.isLocked i) || Player.chatEnabled i = false ∧
  bool_decide (Player.namespace i ≠ "in-game") = false.
Proof.
  intros (-> & -> & Hn). split; [done|]. by rewrite bool_decide_eq_false_2 by (by intros ?).
Qed.

Ltac key_cases code :=
  repeat (case_bool_decide; try subst code; simpl; try done).

(** X16. Pressing a key clears no flag of the movements: a flag that is
    set stays set, whatever the key and the state of the inputs. *)
Theorem onKeyDown_clears_no_flag (i : Player.Inputs) (code : string) (m : Player.Movements) :
  Forall2 (λ before after, before = true → after = true)
    (flags m) (flags (Player.onKeyDown i code m)).
Proof.
  unfold Player.onKeyDown, flags.
  destruct (negb _ || _); [by repeat constructor|].
  destruct m as [u d l r f b s].
  key_cases code; repeat constructor; done.
Qed.

(** X17. Releasing a key sets no flag of the movements, and it never
    changes the sprint flag: the sprint key has no release. *)
Theorem onKeyUp_sets_no_flag (i : Player.Inputs) (code : string) (m : Player.Movements) :
  let m' := Player.onKeyUp i code m in
  Player.sprint m' = Player.sprint m ∧
  Forall2 (λ after before, after = true → before = true) (flags m') (flags m).
Proof.
  simpl. unfold Player.onKeyUp, flags.
  destruct (negb _ || _); [by repeat constructor|].
  destruct m as [u d l r f b s].
  key_cases code; split; try done; repeat constructor; done.
Qed.

(** X18. With the handlers active, releasing a movement key undoes its
    press, pressing the sprint key and releasing it leaves the sprint flag
    set, and a repeated press changes nothing more. *)
Theorem release_after_press (i : Player.Inputs) (code : string) (m : Player.Movements) :
  keys_active i →
  (code ≠ "KeyR" →
   Player.onKeyUp i code (Player.onKeyDown i code m) = Player.onKeyUp i code m) ∧
  Player.onKeyUp i "KeyR" (Player.onKeyDown i "KeyR" m) = Player.set_sprint true m ∧
  Player.onKeyDown i code (Player.onKeyDown i code m) = Player.onKeyDown i code m.
Proof.
  intros [Hg1 Hg2]%keys_active_guards.
  unfold Player.onKeyUp, Player.onKeyDown. rewrite Hg1, Hg2.
  destruct m as [u d l r f b s].
  split_and!.
  - intros Hne. key_cases code.
  - done.
  - key_cases code.
Qed.

Lemma release_after_press_witness :
  keys_active inGame ∧
  Player.onKeyUp inGame "KeyW" (Player.onKeyDown inGame "KeyW" Player.resetMovements)
  = Player.resetMovements ∧
  Player.sprint
    (Player.onKeyUp inGame "KeyR" (Player.onKeyDown inGame "KeyR" Player.resetMovements))
  = true.
Proof.
  assert (keys_active inGame) as Hactive by (repeat split).
  destruct (release_after_press inGame "KeyW" Player.resetMovements Hactive)
    as (Hw & Hr & _).
  split; [exact Hactive|]. split.
  - rewrite Hw; [reflexivity|]. intros Heq. discriminate Heq.
  - reflexivity.
Defined.

(** X19. With the pointer unlocked, the chat open or another input
    namespace, neither handler changes the movements. *)
Theorem inactive_keys_ignored (i : Player.Inputs) (code : string) (m : Player.Movements) :
  ¬ keys_active i →
  Player.onKeyDown i code m = m ∧ Player.onKeyUp i code m = m.
Proof.
  intros Hn. unfold Player.onKeyDown, Player.onKeyUp.
  destruct (negb _ || _) eqn:Hg; [done|].
  case_bool_decide as Hns; [done|]. exfalso. apply Hn.
  apply orb_false_iff in Hg as [Hl%negb_false_iff Hc].
  split_and!; [done|done|].
  destruct (decide (Player.namespace i = "in-game")) as [|Hne]; [done|].
  by destruct Hns.
Qed.

Lemma inactive_keys_ignored_witness :
  let chatting := {| Player.isLocked := true; Player.chatEnabled := true;
                     Player.namespace := "in-game" |} in
  ¬ keys_active chatting ∧
  Player.onKeyDown chatting "KeyW" Player.resetMovements = Player.resetMovements.
Proof.
  intros chatting.
  assert (¬ keys_active chatting) as Hn by (intros (_ & Hc & _); discriminate Hc).
  destruct (inactive_keys_ignored chatting "KeyW" Player.resetMovements Hn) as [Hd _].
  split; [exact Hn|exact Hd].
Defined.

(** ** Movement state *)

Section MoveEntityFacts.
Variable F : Type.
Variable ofZ : Z → F.
Variables add mul div atan2 : F → F → F.
Variable PI : F.
Variable eqb : F → F → bool.

Local Abbreviation moveEntity := (Player.moveEntity F ofZ add mul div atan2 PI eqb).

(** X20. After one call of [moveEntity], whatever the camera and the
    floating-point operations: the brain runs exactly when the keys ask for
    a horizontal movement; it sprints exactly when the sprint flag was set
    before the call; it jumps when up is pressed without down and crouches
    when down is pressed; standing still keeps the heading; and of the
    movements only the sprint flag can change, which is cleared exactly when
    the player stands still while the brain was sprinting. *)
Theorem moveEntity_state (fX fZ sX sZ g a : F)
    (m : Player.Movements) (s : Player.BrainState F) :
  let r := moveEntity fX fZ sX sZ g a m s in
  let m' := r.1.1 in
  let s' := r.1.2 in
  Player.running s' = moving m ∧
  Player.sprinting s' = Player.sprint m ∧
  Player.jumping s' = Player.up m && negb (Player.down m) ∧
  Player.crouching s' = Player.down m ∧
  (moving m = false → Player.heading s' = Player.heading s) ∧
  Player.sprint m' = Player.sprint m && (moving m || negb (Player.sprinting s)) ∧
  Player.set_sprint (Player.sprint m) m' = m.
Proof.
  destruct m as [u d l r f b sp], s as [run spr j c h].
  unfold Player.moveEntity, moving. simpl.
  destruct f, b, l, r; simpl; destruct spr, u, d, sp; simpl; done.
Qed.

(** X21. A sprint ends one call late: when the player stands still with
    the sprint flag set and the brain sprinting, the first call clears the
    flag but leaves the brain sprinting, and the second call stops the
    sprint. *)
Theorem sprint_stops_one_call_late (fX fZ sX sZ g a fX' fZ' sX' sZ' g' a' : F)
    (m : Player.Movements) (s : Player.BrainState F) :
  moving m = false →
  Player.sprint m = true →
  Player.sprinting s = true →
  let r1 := moveEntity fX fZ sX sZ g a m s in
  let r2 := moveEntity fX' fZ' sX' sZ' g' a' r1.1.1 r1.1.2 in
  Player.sprint r1.1.1 = false ∧ Player.sprinting r1.1.2 = true ∧
  Player.sprint r2.1.1 = false ∧ Player.sprinting r2.1.2 = false.
Proof.
  destruct m as [u d l r f b sp], s as [run spr j c h].
  unfold moving. simpl. intros Hm -> ->.
  unfold Player.moveEntity. simpl.
  destruct f, b, l, r; simpl in *; try done.
Qed.

(** X22. After [moveEntity], the footsteps play exactly when the keys ask
    for a horizontal movement and the body is at rest ([atRestY] is -1). *)
Theorem footsteps_follow_keys (fX fZ sX sZ g a atRestY : F)
    (m : Player.Movements) (s : Player.BrainState F) :
  Player.playFootsteps F ofZ eqb atRestY (moveEntity fX fZ sX sZ g a m s).1.2
  = moving m && eqb atRestY (ofZ (-1)).
Proof.
  destruct m as [u d l r f b sp], s as [run spr j c h].
  unfold Player.playFootsteps, Player.moveEntity, moving. simpl.
  destruct f, b, l, r; simpl; destruct spr; simpl; done.
Qed.

(** X23. When comparing with 0 tells 0 from 1, two calls of [toggleFly]
    bring a flying body (gravity multiplier 0) back to flying, and every
    other gravity multiplier to 1; in spectator mode a call changes
    nothing. *)
Theorem toggleFly_twice (gravityMultiplier : F) :
  eqb (ofZ 0) (ofZ 0) = true →
  eqb (ofZ 1) (ofZ 0) = false →
  let toggleFly := Player.toggleFly F ofZ eqb in
  toggleFly false (toggleFly false gravityMultiplier)
  = (if eqb gravityMultiplier (ofZ 0) then ofZ 0 else ofZ 1) ∧
  toggleFly true gravityMultiplier = gravityMultiplier.
Proof.
  intros H0 H1. unfold Player.toggleFly. simpl.
  destruct (eqb gravityMultiplier (ofZ 0)); by rewrite ?H0, ?H1.
Qed.

End MoveEntityFacts.

Lemma sprint_stops_one_call_late_witness :
  let m := Player.set_sprint true Player.resetMovements in
  let s := Player.mkBrainState false true false false 0 in
  let moveEntity := Player.moveEntity Z id Z.add Z.mul Z.div (λ _ _, 0) 3 Z.eqb in
  let r1 := moveEntity 1 0 0 1 1 (-1) m s in
  let r2 := moveEntity 1 0 0 1 1 (-1) r1.1.1 r1.1.2 in
  moving m = false ∧
  Player.sprinting r1.1.2 = true ∧ Player.sprinting r2.1.2 = false.
Proof.
  intros m s moveEntity r1 r2.
  destruct (sprint_stops_one_call_late Z id Z.add Z.mul Z.div (λ _ _, 0) 3 Z.eqb
              1 0 0 1 1 (-1) 1 0 0 1 1 (-1) m s)
    as (_ & H1 & _ & H2); [reflexivity..|].
  split; [reflexivity|]. split; [exact H1|exact H2].
Defined.

Lemma toggleFly_twice_witness :
  Player.toggleFly Z id Z.eqb false (Player.toggleFly Z id Z.eqb false 5) = 1 ∧
  Player.toggleFly Z id Z.eqb false 5 = 0.
Proof.
  destruct (toggleFly_twice Z id Z.eqb 5) as [H2 _]; [reflexivity..|].
  split; [exact H2|reflexivity].
Defined.

(** ** Perspective and name *)

(** X24. The perspectives are toggled in a cycle of three: first, third,
    second, and first again; no toggle keeps the perspective, and the
    player's own mesh is hidden exactly when the toggle arrives at the first
    perspective. *)
Theorem togglePerspective_cycle (p : Player.PerspectiveType) :
  let next := λ p, (Player.togglePerspective p).1 in
  next p ≠ p ∧ next (next p) ≠ p ∧ next (next (next p)) = p ∧
  next Player.first = Player.third ∧ next Player.third = Player.second ∧
  ((Player.togglePerspective p).2 = false ↔ next p = Player.first).
Proof. by destruct p. Qed.

Lemma orElse_nonempty a b : b ≠ "" → Player.orElse a b ≠ "".
Proof. intros Hb. unfold Player.orElse. by case_bool_decide. Qed.

(** X25. The name of the player is never empty: the constructor reads the
    default for a missing or empty entry, and [setName] stores a space for
    an empty name. The name [setName] stores is the name the constructor
    reads back, and [setName] writes no other key of the local storage. *)
Theorem name_round_trip (name : string) (localStorage : gmap string string) :
  let r := Player.setName name localStorage in
  Player.initialName localStorage ≠ "" ∧
  r.1 ≠ "" ∧
  (name ≠ "" → r.1 = name) ∧
  Player.initialName r.2 = r.1 ∧
  (∀ key, key ≠ Player.LOCAL_STORAGE_PLAYER_NAME → r.2 !! key = localStorage !! key).
Proof.
  simpl. split_and!.
  - unfold Player.initialName. destruct (localStorage !! _); [|done].
    by apply orElse_nonempty.
  - by apply orElse_nonempty.
  - intros Hn. unfold Player.orElse. by rewrite bool_decide_eq_false_2.
  - unfold Player.initialName. rewrite lookup_insert_eq.
    unfold Player.orElse at 1. rewrite bool_decide_eq_false_2; [done|].
    by apply orElse_nonempty.
  - intros key Hk. by rewrite lookup_insert_ne.
Qed.
